(** * A shallow embedding of the pool simulator (src/main.c)

    The physics step [update], the input handler [handle_input], the
    table set-up [setup_table], the game loop and the drawing functions
    [render], [draw_ball] and [draw_circle] are transcribed statement by
    statement; the drawing functions return the list of the calls they
    make to the SDL renderer.
    The C code computes on [float]; the transcription is written once,
    over an interface [FloatOps] of the arithmetic the code uses, and is
    read at two number systems:

    - [binary32]: IEEE-754 single precision with round-to-nearest-even,
      every operation rounded on its own (FLT_EVAL_METHOD = 0, no fused
      multiply-add), built on the Standard Library's [SpecFloat].  This
      instance computes, and concrete runs of the program are evaluated
      in it.
    - [R]: the real numbers, the "exact arithmetic" reading, in which
      the algebraic properties of the collision response are proved.

    Properties that depend on control flow only are proved for every
    instance of the interface. *)

From Stdlib Require Import ZArith Bool List Lia.
From Stdlib Require Import Floats.SpecFloat.
From Stdlib Require Import Reals Lra.
From stdpp Require Import base list.

Set Default Proof Using "Type".
Local Open Scope Z_scope.

(** ** The arithmetic interface *)

Class FloatOps (F : Type) := {
  f_of_int : Z -> F;          (* conversion int -> float *)
  f_neg : F -> F;             (* unary minus *)
  f_add : F -> F -> F;
  f_sub : F -> F -> F;
  f_mul : F -> F -> F;
  f_div : F -> F -> F;
  f_sqrt : F -> F;            (* float r = sqrt(e), see [b32_sqrt] *)
  f_lt : F -> F -> bool       (* the C comparison a < b *)
}.

Declare Scope fl_scope.
Delimit Scope fl_scope with fl.
Infix ".+" := f_add (at level 50, left associativity) : fl_scope.
Infix ".-" := f_sub (at level 50, left associativity) : fl_scope.
Infix ".*" := f_mul (at level 40, left associativity) : fl_scope.
Infix "./" := f_div (at level 40, left associativity) : fl_scope.
Infix ".<" := f_lt (at level 70, no associativity) : fl_scope.
Notation "a .> b" := (f_lt b a) (at level 70, no associativity) : fl_scope.

(** ** IEEE-754 binary32 *)

Module B32.

Definition prec : Z := 24.
Definition emax : Z := 128.

Definition t : Type := spec_float.

Definition of_int (z : Z) : t := binary_normalize prec emax z 0 false.

(** Rounding a binary64 value to binary32 (the implicit conversion of an
    assignment [float v = <double>]). *)
Definition of_double (d : spec_float) : t :=
  match d with
  | S754_finite s m e => binary_round prec emax s m e
  | _ => d
  end.

(** [sqrt] of math.h takes and returns a [double]: the argument is
    promoted (exactly), the root is rounded to binary64, and the
    assignment to a [float] variable rounds again. *)
Definition b32_sqrt (a : t) : t := of_double (SFsqrt 53 1024 a).

Definition finite (a : t) : bool :=
  match a with S754_finite _ _ _ | S754_zero _ => true | _ => false end.

Definition is_nan (a : t) : bool :=
  match a with S754_nan => true | _ => false end.

End B32.

#[export] Instance binary32 : FloatOps B32.t := {|
  f_of_int := B32.of_int;
  f_neg := SFopp;
  f_add := SFadd B32.prec B32.emax;
  f_sub := SFsub B32.prec B32.emax;
  f_mul := SFmul B32.prec B32.emax;
  f_div := SFdiv B32.prec B32.emax;
  f_sqrt := B32.b32_sqrt;
  f_lt := SFltb
|}.

(** ** Exact arithmetic *)

Definition Rltb (a b : R) : bool := if Rlt_dec a b then true else false.

#[export] Instance exactR : FloatOps R := {|
  f_of_int := IZR;
  f_neg := Ropp;
  f_add := Rplus;
  f_sub := Rminus;
  f_mul := Rmult;
  f_div := Rdiv;
  f_sqrt := sqrt;
  f_lt := Rltb
|}.

(** ** Constants (main.c, lines 18-31) *)

Definition SCREEN_WIDTH : Z := 1000.
Definition SCREEN_HEIGHT : Z := 500.
Definition TABLE_WIDTH : Z := 900.
Definition TABLE_HEIGHT : Z := 450.
Definition BALL_RADIUS : Z := 15.
Definition BALL_DIAMETER : Z := BALL_RADIUS * 2.
Definition NUM_BALLS : nat := 16.
Definition POCKET_RADIUS : Z := 30.
Definition CUSHION_WIDTH : Z := 25.

Inductive GameState := STATE_AIMING | STATE_SIMULATING | STATE_GAME_OVER.

#[export] Instance GameState_eq_dec : EqDecision GameState.
Proof. solve_decision. Defined.

Record SDL_Color := { r : Z; g : Z; b : Z; a : Z }.

(** The decoded SDL events the handler distinguishes.  The mouse position
    read by SDL_GetMouseState is carried by the button event. *)
Inductive Keycode := SDLK_ESCAPE | SDLK_r | SDLK_other.
Inductive SDL_Event :=
  | SDL_QUIT
  | SDL_KEYDOWN (sym : Keycode)
  | SDL_MOUSEBUTTONDOWN (mouseX mouseY : Z)
  | SDL_OTHER.

Section Game.

Context {F : Type} {FO : FloatOps F}.
Local Open Scope fl_scope.

(** A decimal literal [n/d f] with [n] and [d] exactly representable is
    the correctly rounded quotient. *)
Definition lit (n d : Z) : F := f_of_int n ./ f_of_int d.

Definition FRICTION : F := lit 992 1000.
Definition CUE_POWER_MULTIPLIER : F := lit 15 100.
Definition MIN_VELOCITY : F := lit 1 10.

Record Vec2D := { x : F; y : F }.

Record Ball := {
  id : Z;
  isActive : bool;
  pos : Vec2D;
  vel : Vec2D;
  color : SDL_Color
}.

Record Pocket := { ppos : Vec2D }.

Record World := {
  gBalls : list Ball;
  gPockets : list Pocket;
  gCurrentState : GameState;
  gGameIsRunning : bool
}.

Definition zero_ball : Ball :=
  {| id := 0; isActive := false;
     pos := {| x := f_of_int 0; y := f_of_int 0 |};
     vel := {| x := f_of_int 0; y := f_of_int 0 |};
     color := {| r := 0; g := 0; b := 0; a := 0 |} |}.

#[export] Instance Ball_inhabited : Inhabited Ball := populate zero_ball.
#[export] Instance Pocket_inhabited : Inhabited Pocket :=
  populate {| ppos := {| x := f_of_int 0; y := f_of_int 0 |} |}.

(** Field updates. *)
Definition set_id (v : Z) (q : Ball) : Ball :=
  {| id := v; isActive := isActive q; pos := pos q; vel := vel q; color := color q |}.
Definition set_isActive (v : bool) (q : Ball) : Ball :=
  {| id := id q; isActive := v; pos := pos q; vel := vel q; color := color q |}.
Definition set_pos (v : Vec2D) (q : Ball) : Ball :=
  {| id := id q; isActive := isActive q; pos := v; vel := vel q; color := color q |}.
Definition set_vel (v : Vec2D) (q : Ball) : Ball :=
  {| id := id q; isActive := isActive q; pos := pos q; vel := v; color := color q |}.
Definition set_color (v : SDL_Color) (q : Ball) : Ball :=
  {| id := id q; isActive := isActive q; pos := pos q; vel := vel q; color := v |}.
Definition set_x (v : F) (p : Vec2D) : Vec2D := {| x := v; y := y p |}.
Definition set_y (v : F) (p : Vec2D) : Vec2D := {| x := x p; y := v |}.

Definition set_gBalls (v : list Ball) (w : World) : World :=
  {| gBalls := v; gPockets := gPockets w;
     gCurrentState := gCurrentState w; gGameIsRunning := gGameIsRunning w |}.
Definition set_gPockets (v : list Pocket) (w : World) : World :=
  {| gBalls := gBalls w; gPockets := v;
     gCurrentState := gCurrentState w; gGameIsRunning := gGameIsRunning w |}.
Definition set_gCurrentState (v : GameState) (w : World) : World :=
  {| gBalls := gBalls w; gPockets := gPockets w;
     gCurrentState := v; gGameIsRunning := gGameIsRunning w |}.
Definition set_gGameIsRunning (v : bool) (w : World) : World :=
  {| gBalls := gBalls w; gPockets := gPockets w;
     gCurrentState := gCurrentState w; gGameIsRunning := v |}.

(** [gBalls[i]] read and [gBalls[i] = f(gBalls[i])] written; every index
    the program uses is below NUM_BALLS. *)
Definition ball (i : nat) (bs : list Ball) : Ball := bs !!! i.
Definition upd (i : nat) (f : Ball -> Ball) (bs : list Ball) : list Ball :=
  <[ i := f (ball i bs) ]> bs.

(** *** setup_table (lines 122-179) *)

Definition colors : list SDL_Color :=
  [ {| r := 255; g := 255; b := 255; a := 255 |};
    {| r := 255; g := 215; b := 0; a := 255 |};
    {| r := 0; g := 0; b := 255; a := 255 |};
    {| r := 255; g := 0; b := 0; a := 255 |};
    {| r := 75; g := 0; b := 130; a := 255 |};
    {| r := 255; g := 165; b := 0; a := 255 |};
    {| r := 0; g := 128; b := 0; a := 255 |};
    {| r := 128; g := 0; b := 0; a := 255 |};
    {| r := 0; g := 0; b := 0; a := 255 |};
    {| r := 255; g := 215; b := 0; a := 255 |};
    {| r := 0; g := 0; b := 255; a := 255 |};
    {| r := 255; g := 0; b := 0; a := 255 |};
    {| r := 75; g := 0; b := 130; a := 255 |};
    {| r := 255; g := 165; b := 0; a := 255 |};
    {| r := 0; g := 128; b := 0; a := 255 |};
    {| r := 128; g := 0; b := 0; a := 255 |} ].

Definition rackOrder : list nat :=
  [1; 9; 15; 2; 8; 14; 3; 10; 7; 13; 4; 11; 6; 12; 5]%nat.

Definition init_ball (i : nat) (q : Ball) : Ball :=
  set_color (nth i colors {| r := 0; g := 0; b := 0; a := 0 |})
    (set_vel {| x := f_of_int 0; y := f_of_int 0 |}
      (set_isActive true (set_id (Z.of_nat i) q))).

(** One seat of the rack: row [row], column [col], the [k]-th seat. *)
Definition seat (startX startY ball_offset : F) (row col k : nat)
    (bs : list Ball) : list Ball :=
  let n := nth k rackOrder 0%nat in
  let bs := upd n (fun q => set_pos (set_x
      (startX .+ f_of_int (Z.of_nat row) .* ball_offset) (pos q)) q) bs in
  upd n (fun q => set_pos (set_y
      (startY .+ f_of_int (Z.of_nat col * BALL_DIAMETER)
              .- f_of_int (Z.of_nat row * BALL_RADIUS)) (pos q)) q) bs.

(** The seats in the order of the two nested loops, with the running
    [ballIndex]. *)
Definition seats : list (nat * nat * nat) :=
  let rc := flat_map (fun row => map (fun col => (row, col)) (seq 0 (S row)))
                     (seq 0 5) in
  map (fun '(k, (row, col)) => (row, col, k)) (combine (seq 0 (length rc)) rc).

Definition setup_table (w : World) : World :=
  let bs := fold_left (fun bs i => upd i (init_ball i) bs)
                      (seq 0 NUM_BALLS) (gBalls w) in
  let startX := f_of_int SCREEN_WIDTH .* lit 75 100 in
  let startY := f_of_int SCREEN_HEIGHT ./ f_of_int 2 in
  let ball_offset := f_of_int BALL_DIAMETER .* lit 88 100 in
  let bs := fold_left (fun bs '(row, col, k) =>
                         seat startX startY ball_offset row col k bs)
                      seats bs in
  let bs := upd 0 (set_pos {| x := f_of_int SCREEN_WIDTH .* lit 25 100;
                              y := f_of_int SCREEN_HEIGHT ./ f_of_int 2 |}) bs in
  let tableX := f_of_int (SCREEN_WIDTH - TABLE_WIDTH) ./ f_of_int 2 in
  let tableY := f_of_int (SCREEN_HEIGHT - TABLE_HEIGHT) ./ f_of_int 2 in
  let half := f_of_int TABLE_WIDTH ./ f_of_int 2 in
  let ps :=
    [ {| ppos := {| x := tableX; y := tableY |} |};
      {| ppos := {| x := tableX .+ half; y := tableY |} |};
      {| ppos := {| x := tableX .+ f_of_int TABLE_WIDTH; y := tableY |} |};
      {| ppos := {| x := tableX; y := tableY .+ f_of_int TABLE_HEIGHT |} |};
      {| ppos := {| x := tableX .+ half; y := tableY .+ f_of_int TABLE_HEIGHT |} |};
      {| ppos := {| x := tableX .+ f_of_int TABLE_WIDTH;
                    y := tableY .+ f_of_int TABLE_HEIGHT |} |} ] in
  set_gPockets ps (set_gBalls bs w).

Definition reset_game (w : World) : World :=
  set_gCurrentState STATE_AIMING (setup_table w).

(** The zero-initialised globals and the world after [initialize]. *)
Definition world0 : World :=
  {| gBalls := replicate NUM_BALLS zero_ball;
     gPockets := replicate 6 inhabitant;
     gCurrentState := STATE_AIMING;
     gGameIsRunning := true |}.

Definition initial_world : World := reset_game world0.

(** *** handle_input (lines 205-240) *)

(** The body of the polling loop for one event. *)
Definition handle_event (e : SDL_Event) (w : World) : World :=
  let w := match e with
           | SDL_QUIT => set_gGameIsRunning false w
           | _ => w
           end in
  let w := match e with
           | SDL_KEYDOWN SDLK_ESCAPE => set_gGameIsRunning false w
           | SDL_KEYDOWN SDLK_r => reset_game w
           | _ => w
           end in
  if bool_decide (gCurrentState w = STATE_AIMING) && isActive (ball 0 (gBalls w)) then
    match e with
    | SDL_MOUSEBUTTONDOWN mouseX mouseY =>
        let dx := f_of_int mouseX .- x (pos (ball 0 (gBalls w))) in
        let dy := f_of_int mouseY .- y (pos (ball 0 (gBalls w))) in
        let bs := upd 0 (fun q => set_vel
                     (set_x (f_neg dx .* CUE_POWER_MULTIPLIER) (vel q)) q) (gBalls w) in
        let bs := upd 0 (fun q => set_vel
                     (set_y (f_neg dy .* CUE_POWER_MULTIPLIER) (vel q)) q) bs in
        set_gCurrentState STATE_SIMULATING (set_gBalls bs w)
    | _ => w
    end
  else w.

(** The events pending in the queue are handled in order. *)
Definition handle_input (es : list SDL_Event) (w : World) : World :=
  fold_left (fun w e => handle_event e w) es w.

(** *** update (lines 245-336) *)

(** Steps 1-3: friction, position update, low-speed stop.  The second
    component is the value the step gives to [ballsAreMoving]. *)
Definition speed_of (q : Ball) : F :=
  f_sqrt (x (vel q) .* x (vel q) .+ y (vel q) .* y (vel q)).

Definition apply_friction (q : Ball) : Ball :=
  let q := set_vel (set_x (x (vel q) .* FRICTION) (vel q)) q in
  set_vel (set_y (y (vel q) .* FRICTION) (vel q)) q.

Definition update_position (q : Ball) : Ball :=
  let q := set_pos (set_x (x (pos q) .+ x (vel q)) (pos q)) q in
  set_pos (set_y (y (pos q) .+ y (vel q)) (pos q)) q.

Definition integrate (q : Ball) (ballsAreMoving : bool) : Ball * bool :=
  let q := apply_friction q in
  let q := update_position q in
  let speed := speed_of q in
  if speed .< MIN_VELOCITY
  then (set_vel {| x := f_of_int 0; y := f_of_int 0 |} q, ballsAreMoving)
  else (q, true).

(** Step 4: cushions. *)
Definition tableX1 : F :=
  f_of_int (SCREEN_WIDTH - TABLE_WIDTH) ./ f_of_int 2 .+ f_of_int BALL_RADIUS.
Definition tableY1 : F :=
  f_of_int (SCREEN_HEIGHT - TABLE_HEIGHT) ./ f_of_int 2 .+ f_of_int BALL_RADIUS.
Definition tableX2 : F :=
  tableX1 .+ f_of_int TABLE_WIDTH .- f_of_int BALL_DIAMETER.
Definition tableY2 : F :=
  tableY1 .+ f_of_int TABLE_HEIGHT .- f_of_int BALL_DIAMETER.

Definition bounce_x (bound : F) (q : Ball) : Ball :=
  let q := set_pos (set_x bound (pos q)) q in
  set_vel (set_x (x (vel q) .* f_of_int (-1)) (vel q)) q.
Definition bounce_y (bound : F) (q : Ball) : Ball :=
  let q := set_pos (set_y bound (pos q)) q in
  set_vel (set_y (y (vel q) .* f_of_int (-1)) (vel q)) q.

(** Lines 278-281, one function a line. *)
Definition cushion_left (q : Ball) : Ball :=
  if x (pos q) .< tableX1 then bounce_x tableX1 q else q.
Definition cushion_right (q : Ball) : Ball :=
  if x (pos q) .> tableX2 then bounce_x tableX2 q else q.
Definition cushion_top (q : Ball) : Ball :=
  if y (pos q) .< tableY1 then bounce_y tableY1 q else q.
Definition cushion_bottom (q : Ball) : Ball :=
  if y (pos q) .> tableY2 then bounce_y tableY2 q else q.

Definition cushions (q : Ball) : Ball :=
  cushion_bottom (cushion_top (cushion_right (cushion_left q))).

(** Step 5, the body of the inner loop for an overlapping pair: the
    static resolution (lines 296-299) and the dynamic one (302-313). *)
Definition move_apart (dx dy dist : F) (bi bj : Ball) : Ball * Ball :=
  let overlap := (f_of_int BALL_DIAMETER .- dist) ./ f_of_int 2 in
  let bi := set_pos (set_x (x (pos bi) .- overlap .* (dx ./ dist)) (pos bi)) bi in
  let bi := set_pos (set_y (y (pos bi) .- overlap .* (dy ./ dist)) (pos bi)) bi in
  let bj := set_pos (set_x (x (pos bj) .+ overlap .* (dx ./ dist)) (pos bj)) bj in
  let bj := set_pos (set_y (y (pos bj) .+ overlap .* (dy ./ dist)) (pos bj)) bj in
  (bi, bj).

Definition exchange_velocity (dx dy dist : F) (bi bj : Ball) : Ball * Ball :=
  let nx := dx ./ dist in
  let ny := dy ./ dist in
  let p1 := x (vel bi) .* nx .+ y (vel bi) .* ny in
  let p2 := x (vel bj) .* nx .+ y (vel bj) .* ny in
  let bi := set_vel (set_x (x (vel bi) .+ (p2 .- p1) .* nx) (vel bi)) bi in
  let bi := set_vel (set_y (y (vel bi) .+ (p2 .- p1) .* ny) (vel bi)) bi in
  let bj := set_vel (set_x (x (vel bj) .+ (p1 .- p2) .* nx) (vel bj)) bj in
  let bj := set_vel (set_y (y (vel bj) .+ (p1 .- p2) .* ny) (vel bj)) bj in
  (bi, bj).

Definition dist_sq (bi bj : Ball) : F :=
  let dx := x (pos bj) .- x (pos bi) in
  let dy := y (pos bj) .- y (pos bi) in
  dx .* dx .+ dy .* dy.

Definition overlapping (bi bj : Ball) : bool :=
  dist_sq bi bj .< f_of_int (BALL_DIAMETER * BALL_DIAMETER).

Definition collide (bi bj : Ball) : Ball * Ball :=
  let dx := x (pos bj) .- x (pos bi) in
  let dy := y (pos bj) .- y (pos bi) in
  let distSq := dx .* dx .+ dy .* dy in
  if distSq .< f_of_int (BALL_DIAMETER * BALL_DIAMETER) then
    let dist := f_sqrt distSq in
    let '(bi, bj) := move_apart dx dy dist bi bj in
    exchange_velocity dx dy dist bi bj
  else (bi, bj).

(** One turn of the inner loop (lines 284-315). *)
Definition collide_pair (i j : nat) (bs : list Ball) : list Ball :=
  if negb (isActive (ball j bs)) then bs
  else
    let '(bi, bj) := collide (ball i bs) (ball j bs) in
    <[ j := bj ]> (<[ i := bi ]> bs).

Definition collisions (i : nat) (bs : list Ball) : list Ball :=
  fold_left (fun bs j => collide_pair i j bs)
            (seq (S i) (NUM_BALLS - S i)) bs.

(** Step 6: one turn of the pocket loop (lines 318-329). *)
Definition in_pocket (p : Pocket) (q : Ball) : bool :=
  let dx := x (ppos p) .- x (pos q) in
  let dy := y (ppos p) .- y (pos q) in
  let dist := f_sqrt (dx .* dx .+ dy .* dy) in
  dist .< f_of_int POCKET_RADIUS.

Definition pocket_one (i : nat) (w : World) (p : Pocket) : World :=
  if in_pocket p (ball i (gBalls w)) then
    let w := set_gBalls (upd i (set_isActive false) (gBalls w)) w in
    if bool_decide (id (ball i (gBalls w)) = 8)
    then set_gCurrentState STATE_GAME_OVER w
    else w
  else w.

Definition pocketing (i : nat) (w : World) : World :=
  fold_left (pocket_one i) (gPockets w) w.

(** One turn of the outer loop, on the world and [ballsAreMoving]. *)
Definition ball_step (i : nat) (wm : World * bool) : World * bool :=
  let '(w, ballsAreMoving) := wm in
  if negb (isActive (ball i (gBalls w))) then (w, ballsAreMoving)
  else
    let '(q, ballsAreMoving) := integrate (ball i (gBalls w)) ballsAreMoving in
    let q := cushions q in
    let bs := <[ i := q ]> (gBalls w) in
    let bs := collisions i bs in
    let w := pocketing i (set_gBalls bs w) in
    (w, ballsAreMoving).

(** The outer loop run for the balls [0 .. n-1]. *)
Definition balls_loop (n : nat) (w : World) : World * bool :=
  fold_left (fun wm i => ball_step i wm) (seq 0 n) (w, false).

Definition update (w : World) : World :=
  if negb (bool_decide (gCurrentState w = STATE_SIMULATING)) then w
  else
    let '(w, ballsAreMoving) := balls_loop NUM_BALLS w in
    if negb ballsAreMoving then set_gCurrentState STATE_AIMING w else w.

(** One turn of game_loop: the pending events, then the physics step. *)
Definition frame (es : list SDL_Event) (w : World) : World :=
  update (handle_input es w).

(** [n] turns of game_loop without events, and a whole play: the list of
    the events polled in each turn. *)
Definition ticks (n : nat) (w : World) : World := Nat.iter n update w.

Definition play (fs : list (list SDL_Event)) (w : World) : World :=
  fold_left (fun w es => frame es w) fs w.

(** *** Vocabulary of the statements *)

Definition is_reset (e : SDL_Event) : bool :=
  match e with SDL_KEYDOWN SDLK_r => true | _ => false end.

Definition zero_vec : Vec2D := {| x := f_of_int 0; y := f_of_int 0 |}.

(** The world at the beginning of the turn of ball [i] within a tick. *)
Definition world_at_turn (i : nat) (w : World) : World := fst (balls_loop i w).

(** The speed the program computes for a ball in its turn, after the
    friction and the position update, compared with the threshold. *)
Definition post_friction_speed (q : Ball) : F :=
  speed_of (update_position (apply_friction q)).

Definition slow (q : Ball) : bool := post_friction_speed q .< MIN_VELOCITY.

(** The collision normal the program computes for a pair (lines 302-303),
    the dot product, and a quarter turn of a vector. *)
Definition center_dist (bi bj : Ball) : F := f_sqrt (dist_sq bi bj).

Definition normal (bi bj : Ball) : Vec2D :=
  {| x := (x (pos bj) .- x (pos bi)) ./ center_dist bi bj;
     y := (y (pos bj) .- y (pos bi)) ./ center_dist bi bj |}.

Definition dot (u v : Vec2D) : F := x u .* x v .+ y u .* y v.

Definition perp (u : Vec2D) : Vec2D := {| x := f_neg (y u); y := x u |}.

(** An active ball given by its identity, centre and velocity. *)
Definition mk_ball (i : Z) (px py vx vy : F) : Ball :=
  {| id := i; isActive := true;
     pos := {| x := px; y := py |};
     vel := {| x := vx; y := vy |};
     color := {| r := 0; g := 0; b := 0; a := 0 |} |}.

(** The centre is beyond none of the four inset bounds, by the very
    comparisons of lines 278-281. *)
Definition within_bounds (q : Ball) : bool :=
  negb (x (pos q) .< tableX1) && negb (x (pos q) .> tableX2) &&
  negb (y (pos q) .< tableY1) && negb (y (pos q) .> tableY2).

(** The facts about the four bounds the containment needs: no bound is
    below itself, and the low bound is not above the high one. *)
Definition bounds_in_order : bool :=
  negb (tableX1 .< tableX1) && negb (tableX2 .< tableX2) &&
  negb (tableX2 .< tableX1) &&
  negb (tableY1 .< tableY1) && negb (tableY2 .< tableY2) &&
  negb (tableY2 .< tableY1).

(** Two arrays of balls that agree on which slots are active and on
    every active ball; two worlds that moreover agree on the pockets and
    the state. *)
Definition same_active (bs1 bs2 : list Ball) : Prop :=
  forall k, isActive (ball k bs1) = isActive (ball k bs2) /\
            (isActive (ball k bs1) = true -> ball k bs1 = ball k bs2).

Definition same_play (w1 w2 : World) : Prop :=
  gPockets w1 = gPockets w2 /\ gCurrentState w1 = gCurrentState w2 /\
  same_active (gBalls w1) (gBalls w2).

(** *** The game loop (lines 192-199) and further vocabulary *)

(** game_loop (lines 192-199): the loop runs while [gGameIsRunning]; the
    list holds the events polled in each of its turns, and the loop is
    followed for as many turns as the list is long.  [render] leaves the
    world as it is. *)
Fixpoint game_loop (fs : list (list SDL_Event)) (w : World) : World :=
  match fs with
  | [] => w
  | es :: fs => if gGameIsRunning w then game_loop fs (frame es w) else w
  end.

Definition is_quit (e : SDL_Event) : bool :=
  match e with
  | SDL_QUIT | SDL_KEYDOWN SDLK_ESCAPE => true
  | _ => false
  end.

Definition is_click (e : SDL_Event) : bool :=
  match e with SDL_MOUSEBUTTONDOWN _ _ => true | _ => false end.

(** The part of the world no tick writes. *)
Definition same_table (w w' : World) : Prop :=
  length (gBalls w') = length (gBalls w) /\
  gPockets w' = gPockets w /\ gGameIsRunning w' = gGameIsRunning w /\
  forall k, id (ball k (gBalls w')) = id (ball k (gBalls w)) /\
            color (ball k (gBalls w')) = color (ball k (gBalls w)).

(** An active ball with identity 8 that the tick has deactivated. *)
Definition potted8 (k : nat) (w w' : World) : Prop :=
  id (ball k (gBalls w)) = 8%Z /\ isActive (ball k (gBalls w)) = true /\
  isActive (ball k (gBalls w')) = false.

(** The squared speed of a ball: twice its kinetic energy, the masses
    being equal. *)
Definition energy (q : Ball) : F :=
  x (vel q) .* x (vel q) .+ y (vel q) .* y (vel q).

End Game.

(** The loops stay folded under [simpl]. *)
Arguments setup_table : simpl never.
Arguments reset_game : simpl never.
Arguments balls_loop : simpl never.
Arguments collisions : simpl never.
Arguments pocketing : simpl never.

(** ** Concrete worlds and plays in binary32 *)

Abbreviation World32 := (@World B32.t).
Abbreviation Ball32 := (@Ball B32.t).

Definition rack32 : World32 := @initial_world _ binary32.

(** A play that opens with one mouse click at [(mx, my)] and lets [n]
    further turns of the game loop pass without events. *)
Definition click_then (mx my : Z) (n : nat) : list (list SDL_Event) :=
  [SDL_MOUSEBUTTONDOWN mx my] :: replicate n [].

(** The rack with the cue ball rolling right at speed 0.1f and the table
    simulating: the last tick of a shot that dies out. *)
Definition slow_world : World32 :=
  set_gCurrentState STATE_SIMULATING
    (set_gBalls (upd 0 (set_vel {| x := lit 1 10; y := f_of_int 0 |})
                       (gBalls rack32)) rack32).

(** The rack with the cue ball put on the centre of ball 1. *)
Definition coincident_world : World32 :=
  set_gCurrentState STATE_SIMULATING
    (set_gBalls (upd 0 (set_pos (pos (ball 1 (gBalls rack32))))
                       (gBalls rack32)) rack32).

(** The rack with ball 8 creeping at speed 0.1f towards the top side
    pocket, 30.05 away from its centre (500, 25), everything else at
    rest. *)
Definition creeping_world : World32 :=
  set_gCurrentState STATE_SIMULATING
    (set_gBalls (upd 8 (fun q => set_vel {| x := f_of_int 0; y := f_neg (lit 1 10) |}
                                 (set_pos {| x := f_of_int 500; y := lit 5505 100 |} q))
                       (gBalls rack32)) rack32).

(** The rack with three balls in a row on the line y = 100: balls 0 and
    1 overlap by 10, balls 1 and 2 touch.  Nothing moves, and the
    corrections of the tick are computed on small dyadic numbers, so
    that none of them rounds. *)
Definition row_world : World32 :=
  let put (i : nat) (px : Z) (bs : list Ball32) :=
    upd i (set_pos {| x := f_of_int px; y := f_of_int 100 |}) bs in
  set_gCurrentState STATE_SIMULATING
    (set_gBalls (put 2%nat 150 (put 1%nat 120 (put 0%nat 100 (gBalls rack32)))) rack32).

Definition nan_vec : @Vec2D B32.t := {| x := S754_nan; y := S754_nan |}.

(** A ball in play whose position and velocity are NaN. *)
Definition poisoned (q : Ball32) : Prop :=
  isActive q = true /\ pos q = nan_vec /\ vel q = nan_vec.

(** The head-on test in binary32: a ball moving right at speed 5 that
    has run 10 deep into a ball at rest. *)
Definition striker32 : Ball32 :=
  mk_ball 1 (f_of_int 100) (f_of_int 100) (f_of_int 5) (f_of_int 0).
Definition target32 : Ball32 :=
  mk_ball 2 (f_of_int 120) (f_of_int 100) (f_of_int 0) (f_of_int 0).

(** A head-on pair whose line of centres is oblique: the ball at
    (100, 100) moves with the velocity (3, 5) straight at a ball at rest
    at (103, 105). *)
Definition oblique32 : Ball32 :=
  mk_ball 1 (f_of_int 100) (f_of_int 100) (f_of_int 3) (f_of_int 5).
Definition resting32 : Ball32 :=
  mk_ball 2 (f_of_int 103) (f_of_int 105) (f_of_int 0) (f_of_int 0).

(** A ball that has crossed the left and the bottom bound in one tick. *)
Definition corner32 : Ball32 :=
  mk_ball 3 (f_of_int 60) (f_of_int 470) (f_of_int (-3)) (f_of_int 4).

(** The centre is a pair of numbers between the inset bounds, the bounds
    included: four comparisons, each of which a NaN fails. *)
Definition contained32 (q : Ball32) : bool :=
  SFleb tableX1 (x (pos q)) && SFleb (x (pos q)) tableX2 &&
  SFleb tableY1 (y (pos q)) && SFleb (y (pos q)) tableY2.

(** The rack with the cue ball at rest at (300, 250) and ball 1 put 20
    to its right, overlapping it, with the velocity (-103/1024, 0): a
    speed of 0.1006, which friction takes below MIN_VELOCITY. *)
Definition nudged_world : World32 :=
  set_gCurrentState STATE_SIMULATING
    (set_gBalls
       (upd 1 (fun q => set_vel {| x := f_neg (lit 103 1024); y := f_of_int 0 |}
                          (set_pos {| x := f_of_int 320; y := f_of_int 250 |} q))
          (upd 0 (set_pos {| x := f_of_int 300; y := f_of_int 250 |})
             (gBalls rack32)))
       rack32).

(** The rack with ball 5 potted, the table aiming. *)
Definition potted_world : World32 :=
  set_gBalls (upd 5 (set_isActive false) (gBalls rack32)) rack32.

(** The rack once the money ball has been potted. *)
Definition over_world : World32 :=
  set_gCurrentState STATE_GAME_OVER
    (set_gBalls (upd 8 (set_isActive false) (gBalls rack32)) rack32).

(** The rack with ball 8 rolling at speed 2 towards the top side pocket,
    31 away from its centre (500, 25). *)
Definition potting_world : World32 :=
  set_gCurrentState STATE_SIMULATING
    (set_gBalls (upd 8 (fun q => set_vel {| x := f_of_int 0; y := f_of_int (-2) |}
                                 (set_pos {| x := f_of_int 500; y := f_of_int 56 |} q))
                       (gBalls rack32)) rack32).

(** [slow_world] with ball 5 potted, and the same with the record of
    that ball put on the centre of the cue ball, with a velocity. *)
Definition ghost_world : World32 :=
  set_gBalls (upd 5 (set_isActive false) (gBalls slow_world)) slow_world.
Definition ghost_ball : Ball32 :=
  set_vel {| x := f_of_int 5; y := f_of_int 5 |}
    (set_pos (pos (ball 0 (gBalls ghost_world))) (ball 5 (gBalls ghost_world))).
Definition ghost_world' : World32 :=
  set_gBalls (<[ 5%nat := ghost_ball ]> (gBalls ghost_world)) ghost_world.

(** The opening world once the loop has been left. *)
Definition stopped_world : World32 := set_gGameIsRunning false rack32.

(** ** Rendering (lines 342-450) *)

(** The calls to the SDL renderer, in the order they are made. *)
Inductive Draw :=
  | SetRenderDrawColor (c : SDL_Color)
  | RenderClear
  | RenderFillRect (rx ry rw rh : Z)
  | RenderDrawPoint (px py : Z)
  | RenderDrawLine (x1 y1 x2 y2 : Z)
  | RenderPresent.

#[export] Instance SDL_Color_eq_dec : EqDecision SDL_Color.
Proof. solve_decision. Defined.

Definition black : SDL_Color := {| r := 0; g := 0; b := 0; a := 255 |}.
Definition white : SDL_Color := {| r := 255; g := 255; b := 255; a := 255 |}.

(** [int] arithmetic: a result outside the range of [int] is undefined
    behaviour. *)
Definition in_int (z : Z) : bool := (-2147483648 <=? z) && (z <=? 2147483647).
Definition int_op (z : Z) : option Z := if in_int z then Some z else None.

(** The rest of a computation runs when its first step is defined. *)
Definition and_then {A B : Type} (o : option A) (k : A -> option B) : option B :=
  match o with Some v => k v | None => None end.

Notation "'let?' x := e 'in' k" := (and_then e (fun x => k))
  (at level 10, x name, e at level 200, k at level 200, only parsing).

(** Steps made one after the other; the whole is undefined as soon as
    one step is. *)
Fixpoint in_turn (steps : list (option (list Draw))) : option (list Draw) :=
  match steps with
  | [] => Some []
  | s :: steps =>
      match s, in_turn steps with
      | Some l, Some ls => Some (l ++ ls)
      | _, _ => None
      end
  end.

(** The values of [for (int v = 0; v < n; v++)] and of
    [for (int v = lo; v <= hi; ++v)]. *)
Definition upto (n : Z) : list Z := map Z.of_nat (seq 0 (Z.to_nat n)).
Definition from_to (lo hi : Z) : list Z := map (fun k => lo + k) (upto (hi - lo + 1)).

(** draw_circle (lines 439-450). *)
Definition draw_circle (centerX centerY radius : Z) (color : SDL_Color)
    : option (list Draw) :=
  let? n := int_op (radius * 2) in
  let? pts := in_turn (map (fun w =>
    in_turn (map (fun h =>
      let? dx := int_op (radius - w) in
      let? dy := int_op (radius - h) in
      let? dx2 := int_op (dx * dx) in
      let? dy2 := int_op (dy * dy) in
      let? d2 := int_op (dx2 + dy2) in
      let? r2 := int_op (radius * radius) in
      if d2 <=? r2
      then let? px := int_op (centerX + dx) in
           let? py := int_op (centerY + dy) in
           Some [RenderDrawPoint px py]
      else Some [])
      (upto n)))
    (upto n)) in
  Some (SetRenderDrawColor color :: pts).

(** The colour of the last RenderDrawPoint made at a pixel, if any: the
    draw colour current at that call. *)
Definition point_step (p : Z * Z) (st : SDL_Color * option SDL_Color)
    (d : Draw) : SDL_Color * option SDL_Color :=
  match d with
  | SetRenderDrawColor c => (c, snd st)
  | RenderDrawPoint px py =>
      if bool_decide ((px, py) = p) then (fst st, Some (fst st)) else st
  | _ => st
  end.

Definition point_color_at (l : list Draw) (p : Z * Z) : option SDL_Color :=
  snd (fold_left (point_step p) l (black, None)).

(** The conversion [(int) v] of a float: truncation towards zero; it is
    undefined for NaN, the infinities and the values outside [int]. *)
Definition b32_to_int (v : B32.t) : option Z :=
  match v with
  | S754_zero _ => Some 0
  | S754_finite s m e =>
      let mag := match e with
                 | Zneg k => Z.shiftr (Zpos m) (Zpos k)
                 | _ => Z.shiftl (Zpos m) e
                 end in
      int_op (if s then - mag else mag)
  | _ => None
  end.

(** The promotion of a float to [double], which is exact. *)
Definition b32_to_double (v : B32.t) : spec_float :=
  match v with
  | S754_finite s m e => binary_normalize 53 1024 (cond_Zopp s (Zpos m)) e s
  | _ => v
  end.

(** [fabs(h) < BALL_RADIUS * 0.3f] (line 420): the product is a float,
    the comparison is made in double. *)
Definition stripe_row (h : Z) : bool :=
  SFltb (binary_normalize 53 1024 (Z.abs h) 0 false)
        (b32_to_double (@f_mul _ binary32 (f_of_int BALL_RADIUS) (lit 3 10))).

Definition ball_pixel (q : Ball32) (h : Z) : SDL_Color :=
  if (8 <? id q) && stripe_row h then white else color q.

(** draw_ball (lines 409-429).  [w * w + h * h] is at most 450. *)
Definition draw_ball (q : Ball32) : option (list Draw) :=
  let? cx := b32_to_int (x (pos q)) in
  let? cy := b32_to_int (y (pos q)) in
  let? outline := draw_circle cx cy (BALL_RADIUS + 2) black in
  let? fill := in_turn (map (fun w =>
    in_turn (map (fun h =>
      if w * w + h * h <=? BALL_RADIUS * BALL_RADIUS
      then let? px := int_op (cx + w) in
           let? py := int_op (cy + h) in
           Some [SetRenderDrawColor (ball_pixel q h); RenderDrawPoint px py]
      else Some [])
      (from_to (- BALL_RADIUS) BALL_RADIUS)))
    (from_to (- BALL_RADIUS) BALL_RADIUS)) in
  Some (outline ++ fill).

Definition brown : SDL_Color := {| r := 50; g := 25; b := 0; a := 255 |}.
Definition felt : SDL_Color := {| r := 0; g := 85; b := 0; a := 255 |}.
Definition cue_wood : SDL_Color := {| r := 200; g := 150; b := 100; a := 255 |}.
Definition maroon : SDL_Color := {| r := 128; g := 0; b := 0; a := 255 |}.

(** One pocket of the loop of lines 359-361: the float coordinates are
    converted to the [int] parameters of draw_circle. *)
Definition draw_pocket (p : @Pocket B32.t) : option (list Draw) :=
  let? cx := b32_to_int (x (ppos p)) in
  let? cy := b32_to_int (y (ppos p)) in
  draw_circle cx cy POCKET_RADIUS black.

(** The cue stick (lines 371-376), to the mouse position that
    SDL_GetMouseState reports. *)
Definition draw_cue (mouseX mouseY : Z) (w : World32) : option (list Draw) :=
  if bool_decide (gCurrentState w = STATE_AIMING) && isActive (ball 0 (gBalls w))
  then let? cx := b32_to_int (x (pos (ball 0 (gBalls w)))) in
       let? cy := b32_to_int (y (pos (ball 0 (gBalls w)))) in
       Some [SetRenderDrawColor cue_wood; RenderDrawLine cx cy mouseX mouseY]
  else Some [].

(** render (lines 342-390). *)
Definition render (mouseX mouseY : Z) (w : World32) : option (list Draw) :=
  in_turn
    [ Some [SetRenderDrawColor brown; RenderClear;
            SetRenderDrawColor felt;
            RenderFillRect (Z.quot (SCREEN_WIDTH - TABLE_WIDTH) 2)
                           (Z.quot (SCREEN_HEIGHT - TABLE_HEIGHT) 2)
                           TABLE_WIDTH TABLE_HEIGHT];
      in_turn (map (fun i => draw_pocket (gPockets w !!! i)) (seq 0 6));
      in_turn (map (fun i => if isActive (ball i (gBalls w))
                             then draw_ball (ball i (gBalls w))
                             else Some [])
                   (seq 0 NUM_BALLS));
      draw_cue mouseX mouseY w;
      Some (if bool_decide (gCurrentState w = STATE_GAME_OVER)
            then [SetRenderDrawColor maroon; RenderClear] else []);
      Some [RenderPresent] ].

(** The coordinates can be converted to [int] and a circle of radius
    [rad] around them drawn without overflow. *)
Definition drawable (rad : Z) (v : @Vec2D B32.t) : bool :=
  match b32_to_int (x v), b32_to_int (y v) with
  | Some cx, Some cy =>
      in_int (cx - rad) && in_int (cx + rad) && in_int (cy - rad) && in_int (cy + rad)
  | _, _ => false
  end.

(** The points of draw_circle when nothing overflows. *)
Definition circle_points (cx cy r : Z) : list Draw :=
  flat_map (fun w =>
    flat_map (fun h =>
      if (r - w) * (r - w) + (r - h) * (r - h) <=? r * r
      then [RenderDrawPoint (cx + (r - w)) (cy + (r - h))]
      else [])
      (upto (r * 2)))
    (upto (r * 2)).

(** The points draw_ball paints after the outline, each with the colour
    set just before it, when nothing overflows. *)
Definition ball_fill (q : Ball32) (cx cy : Z) : list Draw :=
  flat_map (fun w =>
    flat_map (fun h =>
      if w * w + h * h <=? BALL_RADIUS * BALL_RADIUS
      then [SetRenderDrawColor (ball_pixel q h); RenderDrawPoint (cx + w) (cy + h)]
      else [])
      (from_to (- BALL_RADIUS) BALL_RADIUS))
    (from_to (- BALL_RADIUS) BALL_RADIUS).

(** The calls that paint single points: a colour or a point. *)
Definition is_paint (d : Draw) : bool :=
  match d with
  | SetRenderDrawColor _ | RenderDrawPoint _ _ => true
  | _ => false
  end.

#[export] Instance Draw_eq_dec : EqDecision Draw.
Proof. solve_decision. Defined.

(** ** Concrete balls in exact arithmetic *)

(** A ball moving right at speed 5 that has run 10 deep into a ball at
    rest: the head-on test of the collision response. *)
Definition striker : @Ball R := mk_ball 1 100%R 100%R 5%R 0%R.
Definition target : @Ball R := mk_ball 2 120%R 100%R 0%R 0%R.

(** A ball that has crossed the left and the bottom bound in one tick. *)
Definition corner_ball : @Ball R := mk_ball 3 60%R 470%R (-3)%R 4%R.

(** * Properties of the control flow, for every arithmetic *)

Section Control.

Context {F : Type} {FO : FloatOps F}.
Local Open Scope fl_scope.
Implicit Types (w : @World F) (bs : list (@Ball F)) (q : @Ball F).

Lemma ball_insert_ne (k i : nat) q bs :
  k <> i -> ball k (<[ i := q ]> bs) = ball k bs.
Proof.
  intros Hki. unfold ball. apply list_lookup_total_insert_ne. congruence.
Qed.

Lemma ball_insert_eq (i : nat) q bs :
  (i < length bs)%nat -> ball i (<[ i := q ]> bs) = q.
Proof.
  intros Hi. unfold ball. now apply list_lookup_total_insert_eq.
Qed.

(** A slot that reads as an active ball is a slot of the array. *)
Lemma active_in_range (i : nat) bs :
  isActive (ball i bs) = true -> (i < length bs)%nat.
Proof.
  intros Hact. destruct (decide (i < length bs)%nat) as [|Hge]; [assumption|].
  unfold ball in Hact.
  rewrite list_lookup_total_alt, lookup_ge_None_2 in Hact by lia.
  discriminate Hact.
Qed.

Lemma balls_loop_S (n : nat) w :
  balls_loop (S n) w = ball_step n (balls_loop n w).
Proof.
  unfold balls_loop. rewrite seq_S, fold_left_app. reflexivity.
Qed.

(** *** What a turn does to the other slots *)

Lemma collide_pair_other (k i j : nat) bs :
  k <> i -> isActive (ball k bs) = false ->
  ball k (collide_pair i j bs) = ball k bs.
Proof.
  intros Hki Hk. unfold collide_pair.
  destruct (isActive (ball j bs)) eqn:Hj; simpl; [|reflexivity].
  destruct (collide (ball i bs) (ball j bs)) as [bi bj].
  assert (k <> j) by (intros ->; congruence).
  now rewrite !ball_insert_ne.
Qed.

Lemma collisions_fold_other (k i : nat) (js : list nat) bs :
  k <> i -> isActive (ball k bs) = false ->
  ball k (fold_left (fun bs j => collide_pair i j bs) js bs) = ball k bs.
Proof.
  intros Hki. revert bs. induction js as [|j js IH]; intros bs Hk; simpl.
  - reflexivity.
  - rewrite IH; rewrite collide_pair_other; auto.
Qed.

Lemma collisions_other (k i : nat) bs :
  k <> i -> isActive (ball k bs) = false ->
  ball k (collisions i bs) = ball k bs.
Proof. apply collisions_fold_other. Qed.

Lemma pocket_one_other (k i : nat) w (p : Pocket) :
  k <> i -> ball k (gBalls (pocket_one i w p)) = ball k (gBalls w).
Proof.
  intros Hki. unfold pocket_one, upd.
  destruct (in_pocket p (ball i (gBalls w))); [|reflexivity].
  match goal with |- context [bool_decide ?P] => destruct (bool_decide P) end;
    simpl; now rewrite ball_insert_ne.
Qed.

Lemma pocketing_other (k i : nat) w :
  k <> i -> ball k (gBalls (pocketing i w)) = ball k (gBalls w).
Proof.
  intros Hki. unfold pocketing. generalize (gPockets w) as ps.
  intros ps. revert w. induction ps as [|p ps IH]; intros w; simpl.
  - reflexivity.
  - now rewrite IH, pocket_one_other.
Qed.

Lemma ball_step_inactive (k i : nat) w (m : bool) :
  isActive (ball k (gBalls w)) = false ->
  ball k (gBalls (fst (ball_step i (w, m)))) = ball k (gBalls w).
Proof.
  intros Hk. unfold ball_step.
  destruct (isActive (ball i (gBalls w))) eqn:Hi; simpl; [|reflexivity].
  assert (k <> i) by (intros ->; congruence).
  destruct (integrate (ball i (gBalls w)) m) as [q m']. simpl.
  rewrite pocketing_other by assumption. simpl.
  rewrite collisions_other; rewrite ?ball_insert_ne; auto.
Qed.

Lemma balls_loop_inactive (k n : nat) w :
  isActive (ball k (gBalls w)) = false ->
  ball k (gBalls (fst (balls_loop n w))) = ball k (gBalls w).
Proof.
  intros Hk. induction n as [|n IH].
  - reflexivity.
  - rewrite balls_loop_S. destruct (balls_loop n w) as [w' m]. simpl in IH.
    rewrite ball_step_inactive; congruence.
Qed.

Lemma update_inactive (k : nat) w :
  isActive (ball k (gBalls w)) = false ->
  ball k (gBalls (update w)) = ball k (gBalls w).
Proof.
  intros Hk. unfold update.
  destruct (bool_decide (gCurrentState w = STATE_SIMULATING));
    cbv beta iota delta [negb]; [|reflexivity].
  pose proof (balls_loop_inactive k NUM_BALLS w Hk) as Hl.
  destruct (balls_loop NUM_BALLS w) as [w' m]. cbn [fst] in Hl.
  destruct m; assumption.
Qed.

Lemma handle_event_inactive (k : nat) (e : SDL_Event) w :
  is_reset e = false ->
  isActive (ball k (gBalls w)) = false ->
  ball k (gBalls (handle_event e w)) = ball k (gBalls w).
Proof.
  intros He Hk.
  destruct e as [|[]|mx my|]; try discriminate He;
    unfold handle_event; cbv beta iota zeta;
    destruct (bool_decide _ && isActive _) eqn:Hshoot; try reflexivity.
  apply andb_prop in Hshoot as [_ Hcue].
  assert (k <> 0%nat) by (intros ->; cbn in Hcue; congruence).
  cbn [gBalls set_gBalls set_gCurrentState]. unfold upd.
  now rewrite !ball_insert_ne.
Qed.

Lemma handle_input_inactive (k : nat) (es : list SDL_Event) w :
  Forall (fun e => is_reset e = false) es ->
  isActive (ball k (gBalls w)) = false ->
  ball k (gBalls (handle_input es w)) = ball k (gBalls w).
Proof.
  intros Hes. revert w. unfold handle_input.
  induction Hes as [|e es He _ IH]; intros w Hk; simpl.
  - reflexivity.
  - rewrite IH; rewrite handle_event_inactive; auto.
Qed.

(** *** Pairs that do not overlap, and the state within the loop *)

Lemma ball_insert_same (k i : nat) bs :
  ball k (<[ i := ball i bs ]> bs) = ball k bs.
Proof.
  destruct (decide (k = i)) as [->|Hki]; [|now apply ball_insert_ne].
  destruct (decide (i < length bs)%nat) as [Hlt|Hge].
  - now apply ball_insert_eq.
  - rewrite list_insert_ge by lia. reflexivity.
Qed.

Lemma collide_pair_apart (k i j : nat) bs :
  i <> j ->
  overlapping (ball i bs) (ball j bs) = false ->
  ball k (collide_pair i j bs) = ball k bs.
Proof.
  intros Hij Hov. unfold collide_pair.
  destruct (isActive (ball j bs)); cbn [negb]; [|reflexivity].
  unfold overlapping, dist_sq in Hov. cbv zeta in Hov.
  unfold collide. cbv zeta. rewrite Hov.
  rewrite <- (ball_insert_ne j i (ball i bs) bs) at 1 by congruence.
  rewrite ball_insert_same. apply ball_insert_same.
Qed.

Lemma collide_pair_untouched (k i j : nat) bs :
  k <> i -> k <> j -> ball k (collide_pair i j bs) = ball k bs.
Proof.
  intros Hki Hkj. unfold collide_pair.
  destruct (isActive (ball j bs)); cbn [negb]; [|reflexivity].
  destruct (collide (ball i bs) (ball j bs)) as [bi bj].
  now rewrite !ball_insert_ne.
Qed.

Lemma pocket_one_state (i : nat) w (p : Pocket) :
  gCurrentState w <> STATE_AIMING ->
  gCurrentState (pocket_one i w p) <> STATE_AIMING.
Proof.
  intros Hst. unfold pocket_one.
  destruct (in_pocket p (ball i (gBalls w))); [|exact Hst].
  match goal with |- context [bool_decide ?P] => destruct (bool_decide P) end;
    [discriminate|exact Hst].
Qed.

Lemma pocketing_state (i : nat) w :
  gCurrentState w <> STATE_AIMING ->
  gCurrentState (pocketing i w) <> STATE_AIMING.
Proof.
  unfold pocketing. generalize (gPockets w) as ps. intros ps. revert w.
  induction ps as [|p ps IH]; intros w Hst; cbn [fold_left].
  - exact Hst.
  - apply IH, pocket_one_state, Hst.
Qed.

Lemma ball_step_state (i : nat) w (m : bool) :
  gCurrentState w <> STATE_AIMING ->
  gCurrentState (fst (ball_step i (w, m))) <> STATE_AIMING.
Proof.
  intros Hst. unfold ball_step.
  destruct (isActive (ball i (gBalls w))); cbn [negb fst]; [|exact Hst].
  destruct (integrate (ball i (gBalls w)) m) as [q m']. cbn [fst].
  apply pocketing_state. exact Hst.
Qed.

Lemma ball_step_keeps_moving (i : nat) w :
  snd (ball_step i (w, true)) = true.
Proof.
  unfold ball_step.
  destruct (isActive (ball i (gBalls w))); cbn [negb snd]; [|reflexivity].
  unfold integrate.
  match goal with |- context [if ?c then _ else _] => destruct c end;
    reflexivity.
Qed.

(** *** The cushion step puts the centre within the bounds *)

Lemma cushion_left_x q :
  (tableX1 .< tableX1) = false ->
  (x (pos (cushion_left q)) .< tableX1) = false.
Proof.
  intros Hirr. unfold cushion_left.
  destruct (x (pos q) .< tableX1) eqn:E; [exact Hirr|exact E].
Qed.

Lemma cushion_right_x q :
  (tableX2 .< tableX2) = false -> (tableX2 .< tableX1) = false ->
  (x (pos q) .< tableX1) = false ->
  (x (pos (cushion_right q)) .< tableX1) = false /\
  (x (pos (cushion_right q)) .> tableX2) = false.
Proof.
  intros Hirr Hord Hlow. unfold cushion_right.
  destruct (x (pos q) .> tableX2) eqn:E; split; assumption.
Qed.

Lemma cushion_top_y q :
  (tableY1 .< tableY1) = false ->
  (y (pos (cushion_top q)) .< tableY1) = false /\
  x (pos (cushion_top q)) = x (pos q).
Proof.
  intros Hirr. unfold cushion_top.
  destruct (y (pos q) .< tableY1) eqn:E; split; try reflexivity; assumption.
Qed.

Lemma cushion_bottom_y q :
  (tableY2 .< tableY2) = false -> (tableY2 .< tableY1) = false ->
  (y (pos q) .< tableY1) = false ->
  ((y (pos (cushion_bottom q)) .< tableY1) = false /\
   (y (pos (cushion_bottom q)) .> tableY2) = false) /\
  x (pos (cushion_bottom q)) = x (pos q).
Proof.
  intros Hirr Hord Hlow. unfold cushion_bottom.
  destruct (y (pos q) .> tableY2) eqn:E; repeat split; assumption.
Qed.

Lemma cushions_within_bounds q :
  bounds_in_order = true -> within_bounds (cushions q) = true.
Proof.
  unfold bounds_in_order. rewrite !andb_true_iff, !negb_true_iff.
  intros [[[[[HX1 HX2] HX] HY1] HY2] HY].
  unfold cushions.
  pose proof (cushion_left_x q HX1) as H1.
  pose proof (cushion_right_x _ HX2 HX H1) as [H2 H2'].
  pose proof (cushion_top_y (cushion_right (cushion_left q)) HY1) as [H3 H3x].
  pose proof (cushion_bottom_y _ HY2 HY H3) as [[H4 H4'] H4x].
  unfold within_bounds. rewrite H4x, H3x, H2, H2', H4, H4'. reflexivity.
Qed.

(** *** The resolution of an overlapping pair, as the program computes it *)

Lemma collide_resolved (bi bj : @Ball F) :
  overlapping bi bj = true ->
  let n := normal bi bj in
  let half := (f_of_int BALL_DIAMETER .- center_dist bi bj) ./ f_of_int 2 in
  pos (fst (collide bi bj)) =
    {| x := x (pos bi) .- half .* x n; y := y (pos bi) .- half .* y n |} /\
  pos (snd (collide bi bj)) =
    {| x := x (pos bj) .+ half .* x n; y := y (pos bj) .+ half .* y n |} /\
  vel (fst (collide bi bj)) =
    {| x := x (vel bi) .+ (dot (vel bj) n .- dot (vel bi) n) .* x n;
       y := y (vel bi) .+ (dot (vel bj) n .- dot (vel bi) n) .* y n |} /\
  vel (snd (collide bi bj)) =
    {| x := x (vel bj) .+ (dot (vel bi) n .- dot (vel bj) n) .* x n;
       y := y (vel bj) .+ (dot (vel bi) n .- dot (vel bj) n) .* y n |}.
Proof.
  intros Hov. unfold overlapping, dist_sq in Hov. cbv zeta in Hov.
  unfold collide. cbv zeta. rewrite Hov. repeat split.
Qed.

End Control.

(** * The state machine and the capture flag *)

Section StateMachine.

Context {F : Type} {FO : FloatOps F}.
Local Open Scope fl_scope.
Implicit Types (w : @World F) (bs : list (@Ball F)) (q : @Ball F).

(** *** The active flag is written by the pocket loop only *)

Lemma collide_isActive (bi bj : @Ball F) :
  isActive (fst (collide bi bj)) = isActive bi /\
  isActive (snd (collide bi bj)) = isActive bj.
Proof.
  unfold collide.
  match goal with |- context [if ?c then _ else _] => destruct c end;
    split; reflexivity.
Qed.

Lemma collide_pair_isActive (k i j : nat) bs :
  i <> j ->
  isActive (ball k (collide_pair i j bs)) = isActive (ball k bs).
Proof.
  intros Hij. unfold collide_pair.
  destruct (isActive (ball j bs)) eqn:Hj; simpl; [|reflexivity].
  pose proof (collide_isActive (ball i bs) (ball j bs)) as [Hi' Hj'].
  destruct (collide (ball i bs) (ball j bs)) as [bi bj]. simpl in Hi', Hj'.
  pose proof (active_in_range j bs Hj) as Hlen.
  destruct (decide (k = j)) as [->|Hkj].
  - rewrite ball_insert_eq by (rewrite length_insert; assumption). congruence.
  - rewrite ball_insert_ne by assumption.
    destruct (decide (k = i)) as [->|Hki].
    + destruct (decide (i < length bs)%nat) as [Hlt|Hge].
      * rewrite ball_insert_eq by assumption. assumption.
      * rewrite list_insert_ge by lia. reflexivity.
    + now rewrite ball_insert_ne.
Qed.

Lemma collisions_isActive (k i : nat) bs :
  isActive (ball k (collisions i bs)) = isActive (ball k bs).
Proof.
  unfold collisions.
  assert (Hjs : Forall (fun j => i <> j) (seq (S i) (NUM_BALLS - S i))).
  { apply Forall_forall. intros j Hj. apply elem_of_seq in Hj. lia. }
  revert bs. induction Hjs as [|j js Hj _ IH]; intros bs; simpl.
  - reflexivity.
  - now rewrite IH, collide_pair_isActive.
Qed.

Lemma ball_step_isActive_other (k i : nat) w (m : bool) :
  k <> i ->
  isActive (ball k (gBalls (fst (ball_step i (w, m))))) = isActive (ball k (gBalls w)).
Proof.
  intros Hki. unfold ball_step.
  destruct (isActive (ball i (gBalls w))) eqn:Hi; simpl; [|reflexivity].
  destruct (integrate (ball i (gBalls w)) m) as [q m']. simpl.
  rewrite pocketing_other by assumption. simpl.
  now rewrite collisions_isActive, ball_insert_ne.
Qed.

(** A ball is active in its turn exactly when it is at the start of the
    tick. *)
Lemma active_at_turn (k n : nat) w :
  (n <= k)%nat ->
  isActive (ball k (gBalls (world_at_turn n w))) = isActive (ball k (gBalls w)).
Proof.
  unfold world_at_turn. induction n as [|n IH]; intros Hn.
  - reflexivity.
  - rewrite balls_loop_S. destruct (balls_loop n w) as [w' m]. simpl in IH.
    rewrite ball_step_isActive_other by lia. apply IH. lia.
Qed.

(** *** The moving flag *)

Lemma integrate_slow q (m : bool) :
  slow q = true ->
  integrate q m =
    (set_vel zero_vec (update_position (apply_friction q)), m).
Proof.
  unfold slow, post_friction_speed, integrate. intros ->. reflexivity.
Qed.

Lemma ball_step_moving (i : nat) w (m : bool) :
  (isActive (ball i (gBalls w)) = true -> slow (ball i (gBalls w)) = true) ->
  snd (ball_step i (w, m)) = m.
Proof.
  intros Hslow. unfold ball_step.
  destruct (isActive (ball i (gBalls w))) eqn:Hi; simpl; [|reflexivity].
  rewrite integrate_slow by auto. reflexivity.
Qed.

Lemma balls_loop_not_moving (n : nat) w :
  (forall i, (i < n)%nat ->
     isActive (ball i (gBalls w)) = true ->
     slow (ball i (gBalls (world_at_turn i w))) = true) ->
  snd (balls_loop n w) = false.
Proof.
  induction n as [|n IH]; intros Hslow.
  - reflexivity.
  - rewrite balls_loop_S.
    specialize (IH (fun i Hi => Hslow i (Nat.lt_lt_succ_r _ _ Hi))).
    pose proof (Hslow n (Nat.lt_succ_diag_r n)) as Hn.
    rewrite <- (active_at_turn n n w) in Hn by lia.
    unfold world_at_turn in Hn.
    destruct (balls_loop n w) as [w' m]. simpl in IH, Hn. subst m.
    now apply ball_step_moving.
Qed.

(** *** What is left of a stopped ball at the end of the tick *)

(** A ball that compares beyond no bound passes the cushion step as it
    is. *)
Lemma cushions_inside q : within_bounds q = true -> cushions q = q.
Proof.
  unfold within_bounds. rewrite !andb_true_iff, !negb_true_iff.
  intros [[[H1 H2] H3] H4].
  unfold cushions, cushion_left. rewrite H1.
  unfold cushion_right. rewrite H2.
  unfold cushion_top. rewrite H3.
  unfold cushion_bottom. rewrite H4. reflexivity.
Qed.

Lemma collide_pair_clear (k i j : nat) bs :
  i <> j ->
  (isActive (ball j bs) = true -> overlapping (ball i bs) (ball j bs) = false) ->
  ball k (collide_pair i j bs) = ball k bs.
Proof.
  intros Hij Hov. destruct (isActive (ball j bs)) eqn:Hj.
  - apply collide_pair_apart; auto.
  - unfold collide_pair. rewrite Hj. reflexivity.
Qed.

Lemma collisions_fold_clear (i : nat) (js : list nat) bs0 bs :
  (forall k, ball k bs = ball k bs0) ->
  (forall j, In j js -> i <> j /\
     (isActive (ball j bs0) = true ->
      overlapping (ball i bs0) (ball j bs0) = false)) ->
  forall k, ball k (fold_left (fun bs j => collide_pair i j bs) js bs) = ball k bs0.
Proof.
  revert bs. induction js as [|j js IH]; intros bs Hbs Hjs k; cbn [fold_left].
  - apply Hbs.
  - apply IH; [|intros j' Hj'; apply Hjs; right; exact Hj'].
    intros k'. destruct (Hjs j (or_introl eq_refl)) as [Hij Hov].
    rewrite collide_pair_clear; [apply Hbs|exact Hij|].
    rewrite !Hbs. exact Hov.
Qed.

Lemma collisions_clear (i : nat) bs :
  (forall j, (i < j < NUM_BALLS)%nat -> isActive (ball j bs) = true ->
     overlapping (ball i bs) (ball j bs) = false) ->
  forall k, ball k (collisions i bs) = ball k bs.
Proof.
  intros Hov. unfold collisions. apply collisions_fold_clear; [reflexivity|].
  intros j Hj%in_seq. split; [lia|]. apply Hov. lia.
Qed.

Lemma collisions_fold_untouched (k i : nat) (js : list nat) bs :
  k <> i -> ~ In k js ->
  ball k (fold_left (fun bs j => collide_pair i j bs) js bs) = ball k bs.
Proof.
  intros Hki. revert bs. induction js as [|j js IH]; intros bs Hk; cbn [fold_left].
  - reflexivity.
  - rewrite IH by (intros Hin; apply Hk; right; exact Hin).
    apply collide_pair_untouched; [exact Hki|].
    intros ->. apply Hk. left. reflexivity.
Qed.

(** The pocket loop writes nothing but the active flag. *)
Lemma upd_isActive_motion (k i : nat) bs :
  pos (ball k (upd i (set_isActive false) bs)) = pos (ball k bs) /\
  vel (ball k (upd i (set_isActive false) bs)) = vel (ball k bs).
Proof.
  unfold upd. destruct (decide (k = i)) as [->|Hki];
    [|rewrite ball_insert_ne by assumption; split; reflexivity].
  destruct (decide (i < length bs)%nat) as [Hlt|Hge].
  - rewrite ball_insert_eq by assumption. split; reflexivity.
  - rewrite list_insert_ge by lia. split; reflexivity.
Qed.

Lemma pocket_one_motion (k i : nat) w (p : Pocket) :
  pos (ball k (gBalls (pocket_one i w p))) = pos (ball k (gBalls w)) /\
  vel (ball k (gBalls (pocket_one i w p))) = vel (ball k (gBalls w)).
Proof.
  unfold pocket_one.
  destruct (in_pocket p (ball i (gBalls w))); [|split; reflexivity].
  match goal with |- context [bool_decide ?P] => destruct (bool_decide P) end;
    cbn [gBalls set_gBalls set_gCurrentState]; apply upd_isActive_motion.
Qed.

Lemma pocketing_motion (k i : nat) w :
  pos (ball k (gBalls (pocketing i w))) = pos (ball k (gBalls w)) /\
  vel (ball k (gBalls (pocketing i w))) = vel (ball k (gBalls w)).
Proof.
  unfold pocketing. generalize (gPockets w) as ps. intros ps. revert w.
  induction ps as [|p ps IH]; intros w; cbn [fold_left]; [split; reflexivity|].
  destruct (IH (pocket_one i w p)) as [-> ->]. apply pocket_one_motion.
Qed.

(** The turn of a ball writes no ball of a lower index. *)
Lemma ball_step_earlier (k i : nat) w (m : bool) :
  (k < i)%nat ->
  ball k (gBalls (fst (ball_step i (w, m)))) = ball k (gBalls w).
Proof.
  intros Hki. unfold ball_step.
  destruct (isActive (ball i (gBalls w))); cbn [negb fst]; [|reflexivity].
  destruct (integrate (ball i (gBalls w)) m) as [q m']. cbn [fst].
  rewrite pocketing_other by lia. cbn [gBalls set_gBalls].
  unfold collisions. rewrite collisions_fold_untouched;
    [apply ball_insert_ne; lia | lia | intros Hin%in_seq; lia].
Qed.

Lemma balls_loop_later (k n : nat) w :
  (k < n)%nat ->
  ball k (gBalls (fst (balls_loop n w))) =
  ball k (gBalls (fst (balls_loop (S k) w))).
Proof.
  induction n as [|n IH]; intros Hk; [lia|].
  destruct (decide (k = n)) as [->|Hne]; [reflexivity|].
  rewrite balls_loop_S. destruct (balls_loop n w) as [w' m] eqn:Hl.
  rewrite ball_step_earlier by lia. cbn [fst] in IH. apply IH. lia.
Qed.

Lemma update_balls w :
  gCurrentState w = STATE_SIMULATING ->
  gBalls (update w) = gBalls (fst (balls_loop NUM_BALLS w)).
Proof.
  intros Hst. unfold update. rewrite bool_decide_eq_true_2 by assumption.
  cbv beta iota delta [negb].
  destruct (balls_loop NUM_BALLS w) as [w' m]. destruct m; reflexivity.
Qed.

(** C6, as amended.  In a tick of the state Simulating in which every
    ball that is active computes, in its turn, a post-friction speed
    below MIN_VELOCITY: the tick ends in the state Aiming; in its turn
    the integration step leaves each such ball with the velocity (0, 0),
    and the cushion, collision and pocket steps of that turn run on the
    ball so stopped; a ball that is then beyond no bound and overlaps no
    active ball of a higher index ends the tick with the velocity (0, 0)
    at the position the integration gave it. *)
Theorem settling_transition w :
  gCurrentState w = STATE_SIMULATING ->
  (forall i, (i < NUM_BALLS)%nat ->
     isActive (ball i (gBalls w)) = true ->
     slow (ball i (gBalls (world_at_turn i w))) = true) ->
  gCurrentState (update w) = STATE_AIMING /\
  forall i, (i < NUM_BALLS)%nat ->
    isActive (ball i (gBalls w)) = true ->
    let wi := world_at_turn i w in
    let q := fst (integrate (ball i (gBalls wi)) false) in
    vel q = zero_vec /\
    balls_loop (S i) w =
      (pocketing i (set_gBalls (collisions i (<[ i := cushions q ]> (gBalls wi))) wi),
       false) /\
    (within_bounds q = true ->
     (forall j, (i < j < NUM_BALLS)%nat ->
        isActive (ball j (gBalls wi)) = true ->
        overlapping q (ball j (gBalls wi)) = false) ->
     vel (ball i (gBalls (update w))) = zero_vec /\
     pos (ball i (gBalls (update w))) = pos q).
Proof.
  intros Hst Hslow. split.
  - unfold update. rewrite bool_decide_eq_true_2 by assumption.
    cbv beta iota delta [negb].
    pose proof (balls_loop_not_moving NUM_BALLS w Hslow) as Hm.
    destruct (balls_loop NUM_BALLS w) as [w' m]. cbn [snd] in Hm. subst m.
    reflexivity.
  - intros i Hi Hact wi q.
    assert (Hacti : isActive (ball i (gBalls wi)) = true)
      by (unfold wi; rewrite active_at_turn by lia; exact Hact).
    assert (Hq : integrate (ball i (gBalls wi)) false =
                 (set_vel zero_vec (update_position (apply_friction (ball i (gBalls wi)))), false))
      by (apply integrate_slow, Hslow; assumption).
    assert (Hvq : vel q = zero_vec) by (unfold q; rewrite Hq; reflexivity).
    assert (Hmi : snd (balls_loop i w) = false).
    { apply balls_loop_not_moving. intros k Hk. apply Hslow. lia. }
    assert (Hturn : balls_loop (S i) w =
              (pocketing i (set_gBalls (collisions i (<[ i := cushions q ]> (gBalls wi))) wi),
               false)).
    { rewrite balls_loop_S. unfold wi, world_at_turn in *.
      destruct (balls_loop i w) as [w' m]. cbn [fst snd] in *. subst m.
      unfold ball_step. rewrite Hacti. cbv beta iota delta [negb].
      unfold q. rewrite Hq. reflexivity. }
    split; [exact Hvq|]. split; [exact Hturn|].
    intros Hin Hov.
    rewrite update_balls by assumption.
    rewrite balls_loop_later by assumption. rewrite Hturn. cbn [fst].
    destruct (pocketing_motion i i
                (set_gBalls (collisions i (<[ i := cushions q ]> (gBalls wi))) wi))
      as [-> ->].
    cbn [gBalls set_gBalls]. rewrite cushions_inside by assumption.
    assert (Hlen : (i < length (gBalls wi))%nat) by (apply active_in_range, Hacti).
    rewrite collisions_clear.
    + rewrite ball_insert_eq by assumption. split; [exact Hvq|reflexivity].
    + intros j Hj. rewrite ball_insert_eq by assumption.
      rewrite ball_insert_ne by lia. apply Hov. exact Hj.
Qed.

Lemma handle_event_reset w :
  handle_event (SDL_KEYDOWN SDLK_r) w = reset_game w.
Proof.
  unfold handle_event. cbv beta iota zeta.
  match goal with |- context [if ?c then _ else _] => destruct c end;
    reflexivity.
Qed.

(** C7.  A mouse click handled in the state Aiming with the cue ball
    active: with (dx, dy) the vector from the cue ball to the mouse, the
    cue ball's velocity becomes (-dx, -dy) times CUE_POWER_MULTIPLIER,
    nothing else of any ball changes, and the state becomes Simulating. *)
Theorem shoot_scaling w (mouseX mouseY : Z) :
  gCurrentState w = STATE_AIMING ->
  isActive (ball 0 (gBalls w)) = true ->
  let dx := f_of_int mouseX .- x (pos (ball 0 (gBalls w))) in
  let dy := f_of_int mouseY .- y (pos (ball 0 (gBalls w))) in
  let w' := handle_event (SDL_MOUSEBUTTONDOWN mouseX mouseY) w in
  ball 0 (gBalls w') =
    set_vel {| x := f_neg dx .* CUE_POWER_MULTIPLIER;
               y := f_neg dy .* CUE_POWER_MULTIPLIER |} (ball 0 (gBalls w)) /\
  (forall k, k <> 0%nat -> ball k (gBalls w') = ball k (gBalls w)) /\
  gCurrentState w' = STATE_SIMULATING.
Proof.
  intros Hst Hact dx dy w'. subst w'. unfold handle_event. simpl.
  rewrite Hst, Hact. simpl.
  pose proof (active_in_range 0 _ Hact) as Hlen.
  unfold upd. repeat split.
  - rewrite !ball_insert_eq by (rewrite ?length_insert; assumption).
    reflexivity.
  - intros k Hk. now rewrite !ball_insert_ne.
Qed.

(** C8.  A mouse click handled while the state is not Aiming, or while
    the cue ball is inactive, leaves the whole world as it is; in the
    state Over a tick does nothing, and an event after which the state
    is no longer Over is the reset key, which leads to Aiming. *)
Theorem shoot_ignored w (mouseX mouseY : Z) :
  (gCurrentState w <> STATE_AIMING \/ isActive (ball 0 (gBalls w)) = false ->
   handle_event (SDL_MOUSEBUTTONDOWN mouseX mouseY) w = w) /\
  (gCurrentState w = STATE_GAME_OVER ->
   update w = w /\
   (forall e, gCurrentState (handle_event e w) <> STATE_GAME_OVER ->
      e = SDL_KEYDOWN SDLK_r) /\
   gCurrentState (handle_event (SDL_KEYDOWN SDLK_r) w) = STATE_AIMING).
Proof.
  split.
  - intros Hor. unfold handle_event. simpl.
    destruct Hor as [Hst|Hact].
    + rewrite bool_decide_eq_false_2 by assumption. reflexivity.
    + rewrite Hact, andb_false_r. reflexivity.
  - intros Hover. repeat split.
    + unfold update. rewrite Hover. reflexivity.
    + intros e Hleft. destruct e as [|[]|mx my|]; try reflexivity;
        exfalso; apply Hleft; unfold handle_event; simpl; rewrite Hover;
        rewrite (bool_decide_eq_false_2 (STATE_GAME_OVER = STATE_AIMING))
          by discriminate; simpl; assumption.
    + rewrite handle_event_reset. reflexivity.
Qed.

(** C9.  A ball whose active flag is false is left exactly as it is, in
    every field, by any play without a reset: any number of turns of the
    game loop, whatever events other than the reset key they handle. *)
Theorem inactive_frozen w (k : nat) (fs : list (list SDL_Event)) :
  isActive (ball k (gBalls w)) = false ->
  Forall (Forall (fun e => is_reset e = false)) fs ->
  ball k (gBalls (play fs w)) = ball k (gBalls w).
Proof.
  intros Hk Hfs. revert w Hk. unfold play.
  induction Hfs as [|es fs Hes _ IH]; intros w Hk; simpl.
  - reflexivity.
  - assert (Hframe : ball k (gBalls (frame es w)) = ball k (gBalls w)).
    { unfold frame. rewrite update_inactive;
        rewrite handle_input_inactive; auto. }
    rewrite IH; congruence.
Qed.

(** *** What an inactive slot holds has no influence *)

Lemma same_active_insert (i : nat) q bs1 bs2 :
  same_active bs1 bs2 ->
  (i < length bs1)%nat -> (i < length bs2)%nat ->
  same_active (<[ i := q ]> bs1) (<[ i := q ]> bs2).
Proof.
  intros Hs H1 H2 k. destruct (decide (k = i)) as [->|Hki].
  - rewrite !ball_insert_eq by assumption. split; reflexivity.
  - rewrite !ball_insert_ne by assumption. apply Hs.
Qed.

Lemma same_active_range (i : nat) bs1 bs2 :
  same_active bs1 bs2 -> isActive (ball i bs1) = true ->
  (i < length bs1)%nat /\ (i < length bs2)%nat /\ ball i bs1 = ball i bs2.
Proof.
  intros Hs Hact. destruct (Hs i) as [Ha Hb].
  split; [now apply active_in_range|].
  split; [apply active_in_range; congruence|auto].
Qed.

Lemma collide_pair_same (i j : nat) bs1 bs2 :
  i <> j ->
  same_active bs1 bs2 -> isActive (ball i bs1) = true ->
  same_active (collide_pair i j bs1) (collide_pair i j bs2) /\
  isActive (ball i (collide_pair i j bs1)) = true.
Proof.
  intros Hij Hs Hi.
  split; [|rewrite collide_pair_isActive by assumption; exact Hi].
  destruct (same_active_range i bs1 bs2 Hs Hi) as (Hi1 & Hi2 & Hbi).
  unfold collide_pair. destruct (Hs j) as [Haj Hbj]. rewrite <- Haj.
  destruct (isActive (ball j bs1)) eqn:Hj; cbn [negb]; [|exact Hs].
  destruct (same_active_range j bs1 bs2 Hs Hj) as (Hj1 & Hj2 & Hbj').
  rewrite <- Hbi, <- Hbj'.
  destruct (collide (ball i bs1) (ball j bs1)) as [bi bj].
  apply same_active_insert; rewrite ?length_insert; try assumption.
  apply same_active_insert; assumption.
Qed.

Lemma collisions_same (i : nat) bs1 bs2 :
  same_active bs1 bs2 -> isActive (ball i bs1) = true ->
  same_active (collisions i bs1) (collisions i bs2).
Proof.
  unfold collisions.
  assert (Hjs : Forall (fun j => i <> j) (seq (S i) (NUM_BALLS - S i))).
  { apply Forall_forall. intros j Hj. apply elem_of_seq in Hj. lia. }
  revert bs1 bs2. induction Hjs as [|j js Hj _ IH]; intros bs1 bs2 Hs Hi.
  - exact Hs.
  - cbn [fold_left].
    destruct (collide_pair_same i j bs1 bs2 Hj Hs Hi) as [Hs' Hi'].
    apply IH; assumption.
Qed.

Lemma pocketing_same (i : nat) w1 w2 :
  same_play w1 w2 ->
  ball i (gBalls w1) = ball i (gBalls w2) ->
  (i < length (gBalls w1))%nat -> (i < length (gBalls w2))%nat ->
  same_play (pocketing i w1) (pocketing i w2).
Proof.
  unfold pocketing. intros (Hp & Hst & Hs). rewrite <- Hp.
  generalize (gPockets w1) as ps. intros ps.
  revert w1 w2 Hp Hst Hs.
  induction ps as [|p ps IH]; intros w1 w2 Hp Hst Hs Hbi H1 H2.
  - repeat split; try assumption; apply Hs.
  - cbn [fold_left].
    assert (Hone : same_play (pocket_one i w1 p) (pocket_one i w2 p) /\
              ball i (gBalls (pocket_one i w1 p)) = ball i (gBalls (pocket_one i w2 p)) /\
              (i < length (gBalls (pocket_one i w1 p)))%nat /\
              (i < length (gBalls (pocket_one i w2 p)))%nat).
    { unfold pocket_one, upd. rewrite <- Hbi.
      destruct (in_pocket p (ball i (gBalls w1))).
      - cbn [gBalls set_gBalls]. rewrite !ball_insert_eq by assumption.
        assert (Hins : same_active
                  (<[ i := set_isActive false (ball i (gBalls w1)) ]> (gBalls w1))
                  (<[ i := set_isActive false (ball i (gBalls w1)) ]> (gBalls w2)))
          by (apply same_active_insert; assumption).
        destruct (bool_decide (id (set_isActive false (ball i (gBalls w1))) = 8%Z));
          cbn [gBalls gPockets gCurrentState set_gBalls set_gCurrentState];
          rewrite ?ball_insert_eq, ?length_insert by assumption;
          repeat split; try assumption; try reflexivity; apply Hins.
      - repeat split; try assumption; apply Hs. }
    destruct Hone as ((Hp' & Hst' & Hs') & Hbi' & H1' & H2').
    apply IH; assumption.
Qed.

Lemma integrate_isActive q (m : bool) : isActive (fst (integrate q m)) = isActive q.
Proof.
  unfold integrate.
  match goal with |- context [if ?c then _ else _] => destruct c end; reflexivity.
Qed.

Lemma cushions_isActive q : isActive (cushions q) = isActive q.
Proof.
  unfold cushions, cushion_bottom, cushion_top, cushion_right, cushion_left.
  repeat match goal with
         | |- context [if ?c then _ else _] => destruct c
         end; reflexivity.
Qed.

Lemma ball_step_same (i : nat) w1 w2 (m : bool) :
  same_play w1 w2 ->
  same_play (fst (ball_step i (w1, m))) (fst (ball_step i (w2, m))) /\
  snd (ball_step i (w1, m)) = snd (ball_step i (w2, m)).
Proof.
  intros (Hp & Hst & Hs). unfold ball_step.
  destruct (Hs i) as [Ha Hb]. rewrite <- Ha.
  destruct (isActive (ball i (gBalls w1))) eqn:Hi; cbn [negb fst snd].
  2: { repeat split; try assumption; apply Hs. }
  destruct (same_active_range i _ _ Hs Hi) as (H1 & H2 & Hbi).
  rewrite <- Hbi.
  pose proof (integrate_isActive (ball i (gBalls w1)) m) as Hint.
  destruct (integrate (ball i (gBalls w1)) m) as [q m']. cbn [fst snd] in *.
  split; [|reflexivity].
  assert (Hq : isActive (cushions q) = true)
    by (rewrite cushions_isActive; congruence).
  assert (Hins : same_active (<[ i := cushions q ]> (gBalls w1))
                             (<[ i := cushions q ]> (gBalls w2)))
    by (apply same_active_insert; assumption).
  assert (Hiq : isActive (ball i (<[ i := cushions q ]> (gBalls w1))) = true)
    by (rewrite ball_insert_eq; assumption).
  pose proof (collisions_same i _ _ Hins Hiq) as Hcol.
  assert (Hic : isActive (ball i (collisions i (<[ i := cushions q ]> (gBalls w1)))) = true)
    by (rewrite collisions_isActive; exact Hiq).
  destruct (same_active_range i _ _ Hcol Hic) as (H1' & H2' & Hbi').
  apply pocketing_same; cbn [gBalls set_gBalls]; try assumption.
  repeat split; try assumption; apply Hcol.
Qed.

Lemma balls_loop_same (n : nat) w1 w2 :
  same_play w1 w2 ->
  same_play (fst (balls_loop n w1)) (fst (balls_loop n w2)) /\
  snd (balls_loop n w1) = snd (balls_loop n w2).
Proof.
  intros Hs. induction n as [|n [IH1 IH2]].
  - split; [exact Hs|reflexivity].
  - rewrite !balls_loop_S.
    destruct (balls_loop n w1) as [w1' m1], (balls_loop n w2) as [w2' m2].
    cbn [fst snd] in IH1, IH2. subst m2.
    apply ball_step_same. exact IH1.
Qed.

(** X1.  Worlds that agree on the pockets, the state, the active flags
    and the active balls still do after a tick: what an inactive slot
    holds has no influence on the game. *)
Theorem inactive_ignored w1 w2 :
  same_play w1 w2 -> same_play (update w1) (update w2).
Proof.
  intros Hs. pose proof Hs as (Hp & Hst & Hb). unfold update. rewrite <- Hst.
  destruct (bool_decide (gCurrentState w1 = STATE_SIMULATING));
    cbv beta iota delta [negb]; [|exact Hs].
  destruct (balls_loop_same NUM_BALLS w1 w2 Hs) as [Hl Hm].
  destruct (balls_loop NUM_BALLS w1) as [w1' m1],
           (balls_loop NUM_BALLS w2) as [w2' m2].
  cbn [fst snd] in Hl, Hm. subst m2.
  destruct m1; [exact Hl|].
  destruct Hl as (Hp' & Hst' & Hb'). repeat split; try assumption; apply Hb'.
Qed.

End StateMachine.

(** * What a tick writes, how it ends, and the game loop *)

Section Outcome.

Context {F : Type} {FO : FloatOps F}.
Local Open Scope fl_scope.
Implicit Types (w : @World F) (bs : list (@Ball F)) (q : @Ball F).

(** *** What a tick never writes: identities, colours, the table *)

Lemma collide_tag (bi bj : @Ball F) :
  (id (fst (collide bi bj)) = id bi /\ color (fst (collide bi bj)) = color bi) /\
  (id (snd (collide bi bj)) = id bj /\ color (snd (collide bi bj)) = color bj).
Proof.
  unfold collide.
  match goal with |- context [if ?c then _ else _] => destruct c end;
    repeat split.
Qed.

Lemma collide_pair_tag (k i j : nat) bs :
  i <> j ->
  id (ball k (collide_pair i j bs)) = id (ball k bs) /\
  color (ball k (collide_pair i j bs)) = color (ball k bs).
Proof.
  intros Hij. unfold collide_pair.
  destruct (isActive (ball j bs)) eqn:Hj; cbn [negb]; [|split; reflexivity].
  pose proof (collide_tag (ball i bs) (ball j bs)) as [[Hi1 Hi2] [Hj1 Hj2]].
  destruct (collide (ball i bs) (ball j bs)) as [bi bj]. cbn [fst snd] in *.
  pose proof (active_in_range j bs Hj) as Hlen.
  destruct (decide (k = j)) as [->|Hkj].
  - rewrite ball_insert_eq by (rewrite length_insert; assumption). auto.
  - rewrite ball_insert_ne by assumption.
    destruct (decide (k = i)) as [->|Hki].
    + destruct (decide (i < length bs)%nat) as [Hlt|Hge].
      * rewrite ball_insert_eq by assumption. auto.
      * rewrite list_insert_ge by lia. auto.
    + rewrite ball_insert_ne by assumption. auto.
Qed.

Lemma collide_pair_length (i j : nat) bs :
  length (collide_pair i j bs) = length bs.
Proof.
  unfold collide_pair. destruct (isActive (ball j bs)); cbn [negb]; [|reflexivity].
  destruct (collide (ball i bs) (ball j bs)). now rewrite !length_insert.
Qed.

Lemma collisions_tag (k i : nat) bs :
  length (collisions i bs) = length bs /\
  id (ball k (collisions i bs)) = id (ball k bs) /\
  color (ball k (collisions i bs)) = color (ball k bs).
Proof.
  unfold collisions.
  assert (Hjs : Forall (fun j => i <> j) (seq (S i) (NUM_BALLS - S i))).
  { apply Forall_forall. intros j Hj. apply elem_of_seq in Hj. lia. }
  revert bs. induction Hjs as [|j js Hj _ IH]; intros bs; cbn [fold_left].
  - auto.
  - destruct (IH (collide_pair i j bs)) as (-> & -> & ->).
    rewrite collide_pair_length.
    destruct (collide_pair_tag k i j bs Hj) as [-> ->]. auto.
Qed.

Lemma integrate_tag q (m : bool) :
  id (fst (integrate q m)) = id q /\ color (fst (integrate q m)) = color q.
Proof.
  unfold integrate.
  match goal with |- context [if ?c then _ else _] => destruct c end;
    split; reflexivity.
Qed.

Lemma cushions_tag q : id (cushions q) = id q /\ color (cushions q) = color q.
Proof.
  unfold cushions, cushion_bottom, cushion_top, cushion_right, cushion_left.
  repeat match goal with
         | |- context [if ?c then _ else _] => destruct c
         end; split; reflexivity.
Qed.

Lemma same_table_refl w : same_table w w.
Proof. repeat split. Qed.

Lemma same_table_trans w1 w2 w3 :
  same_table w1 w2 -> same_table w2 w3 -> same_table w1 w3.
Proof.
  intros (Hl & Hp & Hr & Hk) (Hl' & Hp' & Hr' & Hk').
  split; [congruence|]. split; [congruence|]. split; [congruence|].
  intros k. destruct (Hk k), (Hk' k). split; congruence.
Qed.

Lemma pocket_one_table (i : nat) w (p : Pocket) :
  same_table w (pocket_one i w p).
Proof.
  unfold pocket_one, upd.
  destruct (in_pocket p (ball i (gBalls w))); [|apply same_table_refl].
  assert (Hins : same_table w
            (set_gBalls (<[ i := set_isActive false (ball i (gBalls w)) ]> (gBalls w)) w)).
  { split; [cbn; apply length_insert|]. split; [reflexivity|].
    split; [reflexivity|]. intros k. cbn [gBalls set_gBalls].
    destruct (decide (k = i)) as [->|Hki].
    - destruct (decide (i < length (gBalls w))%nat) as [Hlt|Hge].
      + rewrite ball_insert_eq by assumption. split; reflexivity.
      + rewrite list_insert_ge by lia. split; reflexivity.
    - rewrite ball_insert_ne by assumption. split; reflexivity. }
  match goal with |- context [bool_decide ?P] => destruct (bool_decide P) end;
    exact Hins.
Qed.

Lemma pocketing_table (i : nat) w : same_table w (pocketing i w).
Proof.
  unfold pocketing. generalize (gPockets w) as ps. intros ps.
  assert (Hgen : forall w0, same_table w w0 ->
            same_table w (fold_left (pocket_one i) ps w0)).
  { induction ps as [|p ps IH]; intros w0 H0; cbn [fold_left]; [exact H0|].
    apply IH. eapply same_table_trans; [exact H0|apply pocket_one_table]. }
  apply Hgen, same_table_refl.
Qed.

Lemma ball_step_table (i : nat) w (m : bool) :
  same_table w (fst (ball_step i (w, m))).
Proof.
  unfold ball_step.
  destruct (isActive (ball i (gBalls w))) eqn:Hi; cbn [negb fst];
    [|apply same_table_refl].
  pose proof (integrate_tag (ball i (gBalls w)) m) as Hint.
  destruct (integrate (ball i (gBalls w)) m) as [q m']. cbn [fst] in *.
  eapply same_table_trans; [|apply pocketing_table].
  pose proof (active_in_range i _ Hi) as Hlen.
  split; [cbn; destruct (collisions_tag 0 i (<[ i := cushions q ]> (gBalls w)))
                 as [-> _]; apply length_insert|].
  split; [reflexivity|]. split; [reflexivity|].
  intros k. cbn [gBalls set_gBalls].
  destruct (collisions_tag k i (<[ i := cushions q ]> (gBalls w))) as (_ & -> & ->).
  destruct (decide (k = i)) as [->|Hki].
  - rewrite ball_insert_eq by assumption.
    destruct (cushions_tag q) as [-> ->]. exact Hint.
  - rewrite ball_insert_ne by assumption. split; reflexivity.
Qed.

Lemma balls_loop_table (n : nat) w : same_table w (fst (balls_loop n w)).
Proof.
  induction n as [|n IH]; [apply same_table_refl|].
  rewrite balls_loop_S. destruct (balls_loop n w) as [w' m]. cbn [fst] in IH.
  eapply same_table_trans; [exact IH|apply ball_step_table].
Qed.

(** X2.  A tick never changes the number of balls, the identity or the
    colour of any ball, the pockets, or the running flag. *)
Theorem update_keeps_table w :
  length (gBalls (update w)) = length (gBalls w) /\
  gPockets (update w) = gPockets w /\
  gGameIsRunning (update w) = gGameIsRunning w /\
  forall k, id (ball k (gBalls (update w))) = id (ball k (gBalls w)) /\
            color (ball k (gBalls (update w))) = color (ball k (gBalls w)).
Proof.
  change (same_table w (update w)). unfold update.
  destruct (bool_decide (gCurrentState w = STATE_SIMULATING));
    cbv beta iota delta [negb]; [|apply same_table_refl].
  pose proof (balls_loop_table NUM_BALLS w) as Hl.
  destruct (balls_loop NUM_BALLS w) as [w' m]. cbn [fst] in Hl.
  destruct m; exact Hl.
Qed.

(** *** The moving flag, the other way round *)

Lemma integrate_not_slow q (m : bool) :
  slow q = false -> snd (integrate q m) = true.
Proof.
  unfold slow, post_friction_speed, integrate. intros ->. reflexivity.
Qed.

Lemma balls_loop_moving (n : nat) w :
  snd (balls_loop n w) = true <->
  exists i, (i < n)%nat /\ isActive (ball i (gBalls w)) = true /\
            slow (ball i (gBalls (world_at_turn i w))) = false.
Proof.
  induction n as [|n IH].
  - split; [discriminate|]. intros (i & Hi & _). lia.
  - rewrite balls_loop_S.
    pose proof (active_at_turn n n w (Nat.le_refl n)) as Hact.
    unfold world_at_turn in *.
    destruct (balls_loop n w) as [w' m] eqn:Hloop. cbn [fst snd] in *.
    split.
    + intros Hm. destruct m.
      * destruct (proj1 IH eq_refl) as (i & Hi & Hrest). exists i. split; [lia|auto].
      * exists n. split; [lia|]. rewrite <- Hact.
        unfold ball_step in Hm.
        destruct (isActive (ball n (gBalls w'))) eqn:Hn; cbn [negb snd] in Hm;
          [|discriminate].
        split; [reflexivity|]. rewrite Hloop. cbn [fst].
        destruct (slow (ball n (gBalls w'))) eqn:Hs; [|reflexivity].
        rewrite integrate_slow in Hm by assumption. discriminate.
    + intros (i & Hi & Ha & Hs).
      destruct (decide (i = n)) as [->|Hne].
      * rewrite Hloop in Hs. cbn [fst] in Hs. rewrite <- Hact in Ha.
        unfold ball_step. rewrite Ha. cbn [negb].
        pose proof (integrate_not_slow _ m Hs) as Hint.
        destruct (integrate (ball n (gBalls w')) m). cbn [snd] in *. exact Hint.
      * assert (Hm : m = true) by (apply IH; exists i; split; [lia|auto]).
        subst m. apply ball_step_keeps_moving.
Qed.

(** *** The state within the loop *)

Lemma pocketing_outcome (i : nat) w :
  (i < length (gBalls w))%nat ->
  (ball i (gBalls (pocketing i w)) = ball i (gBalls w) /\
   gCurrentState (pocketing i w) = gCurrentState w) \/
  (isActive (ball i (gBalls (pocketing i w))) = false /\
   gCurrentState (pocketing i w) =
     if bool_decide (id (ball i (gBalls w)) = 8%Z) then STATE_GAME_OVER
     else gCurrentState w).
Proof.
  intros Hlen. unfold pocketing. generalize (gPockets w) as ps. intros ps.
  assert (Hgen : forall w0,
    (length (gBalls w0) = length (gBalls w) /\
     id (ball i (gBalls w0)) = id (ball i (gBalls w))) ->
    ((ball i (gBalls w0) = ball i (gBalls w) /\
      gCurrentState w0 = gCurrentState w) \/
     (isActive (ball i (gBalls w0)) = false /\
      gCurrentState w0 =
        if bool_decide (id (ball i (gBalls w)) = 8%Z) then STATE_GAME_OVER
        else gCurrentState w)) ->
    let w1 := fold_left (pocket_one i) ps w0 in
    (ball i (gBalls w1) = ball i (gBalls w) /\
     gCurrentState w1 = gCurrentState w) \/
    (isActive (ball i (gBalls w1)) = false /\
     gCurrentState w1 =
       if bool_decide (id (ball i (gBalls w)) = 8%Z) then STATE_GAME_OVER
       else gCurrentState w)).
  { induction ps as [|p ps IH]; intros w0 [Hl0 Hid0] H0; cbn [fold_left];
      [exact H0|].
    apply IH.
    - destruct (pocket_one_table i w0 p) as (Hl & _ & _ & Hk).
      destruct (Hk i) as [Hid _]. split; congruence.
    - unfold pocket_one, upd.
      destruct (in_pocket p (ball i (gBalls w0))); [|exact H0].
      right. cbn [gBalls set_gBalls].
      assert (Hb : ball i (<[ i := set_isActive false (ball i (gBalls w0)) ]> (gBalls w0))
                   = set_isActive false (ball i (gBalls w0)))
        by (apply ball_insert_eq; lia).
      rewrite Hb. cbn [id set_isActive]. rewrite Hid0.
      destruct (bool_decide (id (ball i (gBalls w)) = 8%Z)) eqn:H8;
        cbn [gBalls gCurrentState set_gBalls set_gCurrentState];
        rewrite Hb; (split; [reflexivity|]); [reflexivity|].
      destruct H0 as [[_ Hst]|[_ Hst]]; exact Hst. }
  apply Hgen; [split; reflexivity|left; split; reflexivity].
Qed.


Lemma ball_step_outcome (i : nat) w (m : bool) :
  let w2 := fst (ball_step i (w, m)) in
  (isActive (ball i (gBalls w2)) = isActive (ball i (gBalls w)) /\
   gCurrentState w2 = gCurrentState w) \/
  (isActive (ball i (gBalls w)) = true /\
   isActive (ball i (gBalls w2)) = false /\
   gCurrentState w2 =
     if bool_decide (id (ball i (gBalls w)) = 8%Z) then STATE_GAME_OVER
     else gCurrentState w).
Proof.
  intros w2. pose proof (ball_step_table i w m) as (_ & _ & _ & Htag).
  fold w2 in Htag. destruct (Htag i) as [Hid _]. clear Htag.
  subst w2. unfold ball_step in *.
  destruct (isActive (ball i (gBalls w))) eqn:Hi; cbn [negb fst] in *;
    [|left; split; [assumption|reflexivity]].
  pose proof (integrate_isActive (ball i (gBalls w)) m) as Hint.
  destruct (integrate (ball i (gBalls w)) m) as [q m']. cbn [fst] in *.
  pose proof (active_in_range i _ Hi) as Hlen.
  set (bs := collisions i (<[ i := cushions q ]> (gBalls w))) in *.
  assert (Hbs : isActive (ball i bs) = true).
  { unfold bs. rewrite collisions_isActive, ball_insert_eq by assumption.
    rewrite cushions_isActive. congruence. }
  assert (Hl : (i < length (gBalls (set_gBalls bs w)))%nat).
  { cbn [gBalls set_gBalls]. unfold bs.
    destruct (collisions_tag 0 i (<[ i := cushions q ]> (gBalls w))) as [-> _].
    rewrite length_insert. assumption. }
  destruct (pocketing_table i (set_gBalls bs w)) as (_ & _ & _ & Htag).
  destruct (Htag i) as [Hid1 _]. clear Htag.
  destruct (pocketing_outcome i (set_gBalls bs w) Hl) as [[Hb Hst]|[Hb Hst]].
  - left. rewrite Hb, Hst. cbn [gBalls set_gBalls gCurrentState]. auto.
  - right. split; [reflexivity|]. split; [exact Hb|].
    rewrite Hst. rewrite <- Hid1, Hid. reflexivity.
Qed.

Lemma balls_loop_outcome (n : nat) w :
  gCurrentState w <> STATE_GAME_OVER ->
  let w' := fst (balls_loop n w) in
  (gCurrentState w' = STATE_GAME_OVER \/ gCurrentState w' = gCurrentState w) /\
  (gCurrentState w' = STATE_GAME_OVER <->
   exists k, (k < n)%nat /\ potted8 k w w').
Proof.
  intros Hst0. induction n as [|n [IHst IHiff]]; cbv zeta in *.
  - split; [right; reflexivity|]. split; [contradiction|].
    intros (k & Hk & _). lia.
  - pose proof (active_at_turn n n w (Nat.le_refl n)) as Hn.
    pose proof (balls_loop_table n w) as (_ & _ & _ & Htag).
    destruct (Htag n) as [Hidn _]. clear Htag.
    unfold world_at_turn in Hn. rewrite balls_loop_S.
    destruct (balls_loop n w) as [w' m]. cbn [fst] in *.
    pose proof (fun k => ball_step_isActive_other k n w' m) as Hoth.
    pose proof (ball_step_outcome n w' m) as Hout. cbv zeta in Hout.
    set (w2 := fst (ball_step n (w', m))) in *.
    assert (Hkeep : forall k, (k < n)%nat -> potted8 k w w2 <-> potted8 k w w').
    { intros k Hk. unfold potted8. rewrite Hoth by lia. reflexivity. }
    destruct Hout as [[Ha Hs]|(Ha & Hb & Hs)].
    + split; [rewrite Hs; exact IHst|]. rewrite Hs, IHiff. split.
      * intros (k & Hk & Hp). exists k. split; [lia|]. now apply Hkeep.
      * intros (k & Hk & Hp). destruct (decide (k = n)) as [->|Hne].
        -- destruct Hp as (_ & Hp1 & Hp2). congruence.
        -- exists k. split; [lia|]. apply Hkeep; [lia|assumption].
    + rewrite Hidn in Hs.
      destruct (bool_decide (id (ball n (gBalls w)) = 8%Z)) eqn:H8.
      * apply bool_decide_eq_true_1 in H8.
        split; [left; exact Hs|]. split; [|intros _; exact Hs].
        intros _. exists n. split; [lia|]. repeat split; congruence.
      * apply bool_decide_eq_false_1 in H8.
        split; [rewrite Hs; exact IHst|]. rewrite Hs, IHiff. split.
        -- intros (k & Hk & Hp). exists k. split; [lia|]. now apply Hkeep.
        -- intros (k & Hk & Hp). destruct (decide (k = n)) as [->|Hne].
           ++ destruct Hp as (Hp0 & _). contradiction.
           ++ exists k. split; [lia|]. apply Hkeep; [lia|assumption].
Qed.

(** X3.  A tick that starts in Simulating ends in Game Over only if it
    has deactivated an active ball whose identity is 8. *)
Theorem game_over_needs_money_ball w :
  gCurrentState w = STATE_SIMULATING ->
  gCurrentState (update w) = STATE_GAME_OVER ->
  exists k, (k < NUM_BALLS)%nat /\ id (ball k (gBalls w)) = 8%Z /\
            isActive (ball k (gBalls w)) = true /\
            isActive (ball k (gBalls (update w))) = false.
Proof.
  intros Hst Hover. unfold update in *.
  rewrite bool_decide_eq_true_2 in * by assumption.
  cbv beta iota delta [negb] in *.
  assert (Hne : gCurrentState w <> STATE_GAME_OVER) by (rewrite Hst; discriminate).
  pose proof (balls_loop_outcome NUM_BALLS w Hne) as [_ Hiff]. cbv zeta in Hiff.
  destruct (balls_loop NUM_BALLS w) as [w' m]. cbn [fst] in *.
  destruct m; [|discriminate Hover].
  destruct (proj1 Hiff Hover) as (k & Hk & Hp).
  exists k. split; [exact Hk|exact Hp].
Qed.

(** X4.  In a tick that starts in Simulating and deactivates an active
    ball of identity 8, the state at the end is Game Over exactly when
    some active ball computed, in its turn, a speed that is not below
    MIN_VELOCITY; otherwise it is Aiming. *)
Theorem money_ball_potted_outcome w (k : nat) :
  gCurrentState w = STATE_SIMULATING ->
  (k < NUM_BALLS)%nat ->
  id (ball k (gBalls w)) = 8%Z ->
  isActive (ball k (gBalls w)) = true ->
  isActive (ball k (gBalls (update w))) = false ->
  (gCurrentState (update w) = STATE_GAME_OVER \/
   gCurrentState (update w) = STATE_AIMING) /\
  (gCurrentState (update w) = STATE_GAME_OVER <->
   exists i, (i < NUM_BALLS)%nat /\ isActive (ball i (gBalls w)) = true /\
             slow (ball i (gBalls (world_at_turn i w))) = false).
Proof.
  intros Hst Hk H8 Ha Hb. rewrite <- balls_loop_moving.
  unfold update in *. rewrite bool_decide_eq_true_2 in * by assumption.
  cbv beta iota delta [negb] in *.
  assert (Hne : gCurrentState w <> STATE_GAME_OVER) by (rewrite Hst; discriminate).
  pose proof (balls_loop_outcome NUM_BALLS w Hne) as [_ Hiff]. cbv zeta in Hiff.
  destruct (balls_loop NUM_BALLS w) as [w' m]. cbn [fst snd] in *.
  destruct m.
  - assert (Hover : gCurrentState w' = STATE_GAME_OVER).
    { apply Hiff. exists k. split; [exact Hk|]. repeat split; assumption. }
    split; [left; exact Hover|]. split; auto.
  - split; [right; reflexivity|]. split; discriminate.
Qed.

(** X5.  A tick that starts in Simulating and ends in Aiming is one in
    which every active ball computed, in its turn, a speed below
    MIN_VELOCITY. *)
Theorem aiming_means_all_slow w (i : nat) :
  gCurrentState w = STATE_SIMULATING ->
  gCurrentState (update w) = STATE_AIMING ->
  (i < NUM_BALLS)%nat ->
  isActive (ball i (gBalls w)) = true ->
  slow (ball i (gBalls (world_at_turn i w))) = true.
Proof.
  intros Hst Haim Hi Ha.
  destruct (slow (ball i (gBalls (world_at_turn i w)))) eqn:Hs; [reflexivity|].
  exfalso.
  assert (Hm : snd (balls_loop NUM_BALLS w) = true).
  { apply balls_loop_moving. exists i. auto. }
  unfold update in Haim. rewrite bool_decide_eq_true_2 in Haim by assumption.
  cbv beta iota delta [negb] in Haim.
  assert (Hne : gCurrentState w <> STATE_GAME_OVER) by (rewrite Hst; discriminate).
  pose proof (balls_loop_outcome NUM_BALLS w Hne) as [Hor _]. cbv zeta in Hor.
  destruct (balls_loop NUM_BALLS w) as [w' m]. cbn [fst snd] in *. subst m.
  destruct Hor as [Hor|Hor]; congruence.
Qed.

(** Writing an inactive record into an inactive slot changes nothing of
    the play. *)
Lemma same_play_dead_slot (i : nat) q w :
  isActive (ball i (gBalls w)) = false -> isActive q = false ->
  same_play w (set_gBalls (<[ i := q ]> (gBalls w)) w).
Proof.
  intros Hi Hq. split; [reflexivity|]. split; [reflexivity|].
  intros k. cbn [gBalls set_gBalls].
  destruct (decide (k = i)) as [->|Hne];
    [|rewrite ball_insert_ne by assumption; split; reflexivity].
  destruct (decide (i < length (gBalls w))%nat) as [Hlt|Hge].
  - rewrite ball_insert_eq by assumption. rewrite Hi, Hq.
    split; [reflexivity|discriminate].
  - rewrite list_insert_ge by lia. split; reflexivity.
Qed.

(** *** The events of a turn and the game loop *)

Lemma reset_game_running w : gGameIsRunning (reset_game w) = gGameIsRunning w.
Proof. reflexivity. Qed.

Lemma handle_event_running (e : SDL_Event) w :
  gGameIsRunning (handle_event e w) =
  if is_quit e then false else gGameIsRunning w.
Proof.
  unfold handle_event.
  destruct e as [|[]|mx my|]; cbv beta iota zeta delta [is_quit];
    match goal with |- context [if ?c then _ else _] => destruct c end;
    reflexivity.
Qed.

Lemma handle_input_running (es : list SDL_Event) w :
  gGameIsRunning (handle_input es w) =
  if existsb is_quit es then false else gGameIsRunning w.
Proof.
  unfold handle_input. revert w.
  induction es as [|e es IH]; intros w; cbn [fold_left existsb]; [reflexivity|].
  rewrite IH, handle_event_running.
  destruct (is_quit e); cbn [orb]; [destruct (existsb is_quit es)|]; reflexivity.
Qed.

Lemma update_running w : gGameIsRunning (update w) = gGameIsRunning w.
Proof.
  unfold update.
  destruct (bool_decide (gCurrentState w = STATE_SIMULATING));
    cbv beta iota delta [negb]; [|reflexivity].
  pose proof (balls_loop_table NUM_BALLS w) as (_ & _ & Hr & _).
  destruct (balls_loop NUM_BALLS w) as [w' m]. cbn [fst] in Hr.
  destruct m; exact Hr.
Qed.

(** X6.  An SDL_QUIT or Escape among the events of a turn ends the game
    loop after that turn: the rest of the batch is still handled and the
    tick is still run, and no later turn takes place. *)
Theorem quit_ends_the_loop (es : list SDL_Event) (fs : list (list SDL_Event)) w :
  gGameIsRunning w = true ->
  existsb is_quit es = true ->
  game_loop (es :: fs) w = frame es w /\
  gGameIsRunning (frame es w) = false.
Proof.
  intros Hrun Hq.
  assert (Hoff : gGameIsRunning (frame es w) = false).
  { unfold frame. rewrite update_running, handle_input_running, Hq. reflexivity. }
  split; [|exact Hoff].
  cbn [game_loop]. rewrite Hrun. destruct fs as [|es' fs]; cbn [game_loop];
    [reflexivity|]. rewrite Hoff. reflexivity.
Qed.

(** X7.  Nothing sets the running flag again: once it is false it is
    false after any play, resets included. *)
Theorem running_flag_never_set (fs : list (list SDL_Event)) w :
  gGameIsRunning w = false -> gGameIsRunning (play fs w) = false.
Proof.
  unfold play. revert w. induction fs as [|es fs IH]; intros w Hoff;
    cbn [fold_left]; [exact Hoff|].
  apply IH. unfold frame. rewrite update_running, handle_input_running, Hoff.
  destruct (existsb is_quit es); reflexivity.
Qed.

Lemma click_ignored (mx my : Z) w :
  gCurrentState w <> STATE_AIMING ->
  handle_event (SDL_MOUSEBUTTONDOWN mx my) w = w.
Proof.
  intros Hst. unfold handle_event. cbv beta iota zeta.
  rewrite bool_decide_eq_false_2 by assumption. reflexivity.
Qed.

(** X8.  Of the mouse clicks polled in one turn only the first one
    shoots: when the table is aiming with the cue ball active, a batch
    of clicks has the effect of its first click. *)
Theorem only_first_click_counts (mx my : Z) (es : list SDL_Event) w :
  gCurrentState w = STATE_AIMING ->
  isActive (ball 0 (gBalls w)) = true ->
  forallb is_click es = true ->
  handle_input (SDL_MOUSEBUTTONDOWN mx my :: es) w =
  handle_event (SDL_MOUSEBUTTONDOWN mx my) w.
Proof.
  intros Hst Hact Hes. unfold handle_input. cbn [fold_left].
  set (w1 := handle_event (SDL_MOUSEBUTTONDOWN mx my) w).
  assert (Hsim : gCurrentState w1 <> STATE_AIMING).
  { subst w1. unfold handle_event. cbv beta iota zeta.
    rewrite bool_decide_eq_true_2 by assumption. rewrite Hact.
    cbn. discriminate. }
  clearbody w1. induction es as [|e es IH]; cbn [fold_left]; [reflexivity|].
  cbn [forallb] in Hes. apply andb_prop in Hes as [He Hes].
  destruct e as [| |ex ey|]; try discriminate He.
  rewrite click_ignored by assumption. apply IH. exact Hes.
Qed.

Lemma setup_table_balls_fresh bs1 bs2 (ps1 ps2 : list Pocket) s1 s2 r1 r2 :
  length bs1 = NUM_BALLS -> length bs2 = NUM_BALLS ->
  gBalls (setup_table {| gBalls := bs1; gPockets := ps1;
                         gCurrentState := s1; gGameIsRunning := r1 |}) =
  gBalls (setup_table {| gBalls := bs2; gPockets := ps2;
                         gCurrentState := s2; gGameIsRunning := r2 |}).
Proof.
  intros H1 H2. unfold NUM_BALLS in *.
  do 17 (destruct bs1 as [|? bs1]; try discriminate H1).
  do 17 (destruct bs2 as [|? bs2]; try discriminate H2).
  vm_compute. reflexivity.
Qed.

Lemma reset_game_fresh w :
  length (gBalls w) = NUM_BALLS ->
  reset_game w = set_gGameIsRunning (gGameIsRunning w) initial_world.
Proof.
  intros Hlen. destruct w as [bs ps s r]. cbn [gBalls gGameIsRunning] in *.
  unfold initial_world, reset_game, set_gGameIsRunning, set_gCurrentState.
  f_equal.
  - apply setup_table_balls_fresh; [assumption|reflexivity].
Qed.

(** X9.  The reset key is accepted in every state and forgets the whole
    table: whatever the balls, the pockets and the state were, the world
    afterwards is the opening world, with the running flag kept. *)
Theorem reset_from_any_state w :
  length (gBalls w) = NUM_BALLS ->
  handle_event (SDL_KEYDOWN SDLK_r) w =
    set_gGameIsRunning (gGameIsRunning w) initial_world /\
  gCurrentState (handle_event (SDL_KEYDOWN SDLK_r) w) = STATE_AIMING.
Proof.
  intros Hlen. rewrite handle_event_reset, reset_game_fresh by assumption.
  split; reflexivity.
Qed.

End Outcome.

(** * The collision response and the cushions in exact arithmetic *)

Section Exact.
Local Open Scope R_scope.
Implicit Types (bi bj q : @Ball R).

Ltac exact_ops :=
  change (@f_add R exactR) with Rplus in *;
  change (@f_sub R exactR) with Rminus in *;
  change (@f_mul R exactR) with Rmult in *;
  change (@f_div R exactR) with Rdiv in *;
  change (@f_neg R exactR) with Ropp in *;
  change (@f_sqrt R exactR) with sqrt in *;
  change (@f_lt R exactR) with Rltb in *;
  change (@f_of_int R exactR) with IZR in *.

Lemma Rltb_true (u v : R) : Rltb u v = true <-> u < v.
Proof. unfold Rltb. destruct (Rlt_dec u v); split; intros; try easy. Qed.

(** The geometry of an overlapping pair with distinct centres. *)
Lemma pair_geometry bi bj :
  0 < dist_sq bi bj ->
  let d := center_dist bi bj in
  let n := normal bi bj in
  0 < d /\ d * d = dist_sq bi bj /\
  x n * d = x (pos bj) - x (pos bi) /\
  y n * d = y (pos bj) - y (pos bi) /\
  dot n n = 1.
Proof.
  intros Hpos d n.
  assert (Hd : 0 < d) by (apply sqrt_lt_R0; exact Hpos).
  assert (Hdd : d * d = dist_sq bi bj) by (apply sqrt_sqrt; lra).
  assert (Hx : x n * d = x (pos bj) - x (pos bi)).
  { subst n. unfold normal. cbn [x y]. fold d. exact_ops. field. lra. }
  assert (Hy : y n * d = y (pos bj) - y (pos bi)).
  { subst n. unfold normal. cbn [x y]. fold d. exact_ops. field. lra. }
  repeat split; try assumption.
  unfold dot. exact_ops.
  assert (Hsq : (x n * d) * (x n * d) + (y n * d) * (y n * d) = d * d).
  { rewrite Hx, Hy, Hdd. unfold dist_sq. exact_ops. ring. }
  assert (Hfac : (x n * x n + y n * y n - 1) * (d * d) = 0)
    by (ring_simplify; ring_simplify in Hsq; lra).
  apply Rmult_integral in Hfac. destruct Hfac as [H0|H0]; [lra|].
  assert (0 < d * d) by (apply Rmult_lt_0_compat; assumption). lra.
Qed.

(** C3, as amended.  In exact arithmetic, for an overlapping pair with
    distinct centres, with [n] the collision normal the program computes: the
    resolution swaps the components of the two velocities along [n] and
    keeps both components perpendicular to [n]; when ball [j] is at rest
    the velocity of [i] along [n] becomes 0 and [j] takes the whole
    incoming normal component, and when moreover [i] moves along [n]
    (head-on) ball [i] stops and ball [j] leaves with the velocity [i]
    had. *)
Theorem velocity_exchange bi bj :
  overlapping bi bj = true ->
  0 < dist_sq bi bj ->
  let n := normal bi bj in
  let bi' := fst (collide bi bj) in
  let bj' := snd (collide bi bj) in
  (dot (vel bi') n = dot (vel bj) n /\ dot (vel bj') n = dot (vel bi) n) /\
  (dot (vel bi') (perp n) = dot (vel bi) (perp n) /\
   dot (vel bj') (perp n) = dot (vel bj) (perp n)) /\
  (vel bj = zero_vec ->
     dot (vel bi') n = 0 /\ dot (vel bj') n = dot (vel bi) n) /\
  (vel bj = zero_vec -> dot (vel bi) (perp n) = 0 ->
     vel bi' = zero_vec /\ vel bj' = vel bi).
Proof.
  intros Hov Hpos n bi' bj'.
  destruct (pair_geometry bi bj Hpos) as (Hd & Hdd & Hx & Hy & Hn).
  fold n in Hx, Hy, Hn.
  assert (Hvi : vel bi' =
    {| x := x (vel bi) + (dot (vel bj) n - dot (vel bi) n) * x n;
       y := y (vel bi) + (dot (vel bj) n - dot (vel bi) n) * y n |}).
  { apply (collide_resolved bi bj Hov). }
  assert (Hvj : vel bj' =
    {| x := x (vel bj) + (dot (vel bi) n - dot (vel bj) n) * x n;
       y := y (vel bj) + (dot (vel bi) n - dot (vel bj) n) * y n |}).
  { apply (collide_resolved bi bj Hov). }
  clearbody bi' bj'. rewrite Hvi, Hvj. clear Hvi Hvj bi' bj'.
  unfold dot, perp, zero_vec in *. cbn [x y] in *. exact_ops.
  destruct (vel bi) as [vx vy], (vel bj) as [ux uy]. cbn [x y] in *.
  clearbody n. destruct n as [nx ny]. cbn [x y] in *.
  assert (Hzero : forall ax ay : R,
            {| x := ax; y := ay |} = {| x := 0; y := 0 |} :> @Vec2D R ->
            ax = 0 /\ ay = 0).
  { intros ax ay Heq. injection Heq as -> ->. split; reflexivity. }
  set (N := nx * nx + ny * ny) in Hn.
  assert (Hij : (vx + (ux * nx + uy * ny - (vx * nx + vy * ny)) * nx) * nx +
                (vy + (ux * nx + uy * ny - (vx * nx + vy * ny)) * ny) * ny =
                ux * nx + uy * ny).
  { apply Rminus_diag_uniq.
    transitivity ((ux * nx + uy * ny - (vx * nx + vy * ny)) * (N - 1));
      [unfold N; ring | rewrite Hn; ring]. }
  assert (Hji : (ux + (vx * nx + vy * ny - (ux * nx + uy * ny)) * nx) * nx +
                (uy + (vx * nx + vy * ny - (ux * nx + uy * ny)) * ny) * ny =
                vx * nx + vy * ny).
  { apply Rminus_diag_uniq.
    transitivity ((vx * nx + vy * ny - (ux * nx + uy * ny)) * (N - 1));
      [unfold N; ring | rewrite Hn; ring]. }
  split; [split; assumption|].
  split; [split; ring|].
  split.
  - intros [-> ->]%Hzero. split.
    + rewrite Hij. ring.
    + rewrite Hji. ring.
  - intros [-> ->]%Hzero Hperp. split; f_equal.
    + apply Rminus_diag_uniq.
      transitivity (- vx * (N - 1) - ny * (vx * - ny + vy * nx));
        [unfold N; ring | rewrite Hn, Hperp; ring].
    + apply Rminus_diag_uniq.
      transitivity (- vy * (N - 1) + nx * (vx * - ny + vy * nx));
        [unfold N; ring | rewrite Hn, Hperp; ring].
    + apply Rminus_diag_uniq.
      transitivity (vx * (N - 1) + ny * (vx * - ny + vy * nx));
        [unfold N; ring | rewrite Hn, Hperp; ring].
    + apply Rminus_diag_uniq.
      transitivity (vy * (N - 1) - nx * (vx * - ny + vy * nx));
        [unfold N; ring | rewrite Hn, Hperp; ring].
Qed.

(** C4, as amended.  In exact arithmetic, for an overlapping pair with
    distinct centres: the correction moves ball [i] by half the overlap
    against the unit normal and ball [j] by half the overlap along it,
    and right after it the distance of the two centres is exactly
    BALL_DIAMETER. *)
Theorem positional_correction bi bj :
  overlapping bi bj = true ->
  0 < dist_sq bi bj ->
  let n := normal bi bj in
  let half := (IZR BALL_DIAMETER - center_dist bi bj) / 2 in
  let bi' := fst (collide bi bj) in
  let bj' := snd (collide bi bj) in
  (0 < half /\ dot n n = 1) /\
  pos bi' = {| x := x (pos bi) - half * x n; y := y (pos bi) - half * y n |} /\
  pos bj' = {| x := x (pos bj) + half * x n; y := y (pos bj) + half * y n |} /\
  center_dist bi' bj' = IZR BALL_DIAMETER.
Proof.
  intros Hov Hpos n half bi' bj'.
  destruct (pair_geometry bi bj Hpos) as (Hd & Hdd & Hx & Hy & Hn).
  fold n in Hx, Hy, Hn.
  assert (Hlt : dist_sq bi bj < 900).
  { apply Rltb_true. exact Hov. }
  assert (Hhalf : 0 < half).
  { unfold half. change (IZR BALL_DIAMETER) with 30.
    assert (center_dist bi bj < 30) by nra. lra. }
  assert (Hpi : pos bi' =
    {| x := x (pos bi) - half * x n; y := y (pos bi) - half * y n |}).
  { apply (collide_resolved bi bj Hov). }
  assert (Hpj : pos bj' =
    {| x := x (pos bj) + half * x n; y := y (pos bj) + half * y n |}).
  { apply (collide_resolved bi bj Hov). }
  split; [split; assumption|]. split; [assumption|]. split; [assumption|].
  unfold center_dist, dist_sq. cbv zeta. rewrite Hpi, Hpj. cbn [x y].
  exact_ops. change (IZR BALL_DIAMETER) with 30 in *.
  replace ((x (pos bj) + half * x n - (x (pos bi) - half * x n)) *
           (x (pos bj) + half * x n - (x (pos bi) - half * x n)) +
           (y (pos bj) + half * y n - (y (pos bi) - half * y n)) *
           (y (pos bj) + half * y n - (y (pos bi) - half * y n)))
    with (30 * 30).
  - apply sqrt_square. lra.
  - unfold dot in Hn. exact_ops.
    replace (x (pos bj) + half * x n - (x (pos bi) - half * x n))
      with (x n * 30)
      by (unfold half; replace (x (pos bj))
            with (x (pos bi) + x n * center_dist bi bj) by (rewrite Hx; ring); field).
    replace (y (pos bj) + half * y n - (y (pos bi) - half * y n))
      with (y n * 30)
      by (unfold half; replace (y (pos bj))
            with (y (pos bi) + y n * center_dist bi bj) by (rewrite Hy; ring); field).
    transitivity (30 * 30 * (x n * x n + y n * y n)); [rewrite Hn; ring | ring].
Qed.

Lemma table_bounds :
  @tableX1 R _ = 65 /\ @tableX2 R _ = 935 /\
  @tableY1 R _ = 40 /\ @tableY2 R _ = 460.
Proof.
  unfold tableX2, tableY2, tableX1, tableY1. exact_ops.
  change (IZR (SCREEN_WIDTH - TABLE_WIDTH)) with 100.
  change (IZR (SCREEN_HEIGHT - TABLE_HEIGHT)) with 50.
  change (IZR BALL_RADIUS) with 15. change (IZR BALL_DIAMETER) with 30.
  change (IZR TABLE_WIDTH) with 900. change (IZR TABLE_HEIGHT) with 450.
  repeat split; field.
Qed.

Lemma cushion_x_exact (X : R) (c : bool) q :
  let q' := if c then bounce_x X q else q in
  (if c then x (pos q') = X /\ x (vel q') = - x (vel q)
   else x (pos q') = x (pos q) /\ x (vel q') = x (vel q)) /\
  y (pos q') = y (pos q) /\ y (vel q') = y (vel q) /\
  id q' = id q /\ isActive q' = isActive q /\ color q' = color q.
Proof.
  destruct c; cbn; repeat split; try reflexivity. exact_ops. ring.
Qed.

Lemma cushion_y_exact (Y : R) (c : bool) q :
  let q' := if c then bounce_y Y q else q in
  (if c then y (pos q') = Y /\ y (vel q') = - y (vel q)
   else y (pos q') = y (pos q) /\ y (vel q') = y (vel q)) /\
  x (pos q') = x (pos q) /\ x (vel q') = x (vel q) /\
  id q' = id q /\ isActive q' = isActive q /\ color q' = color q.
Proof.
  destruct c; cbn; repeat split; try reflexivity. exact_ops. ring.
Qed.

(** The cushion step read in exact arithmetic, where every coordinate
    is a number: a coordinate that has crossed one of its two bounds is
    set to that bound and the velocity component of that axis is
    negated, a coordinate between its bounds is kept with its velocity
    component;
    the two axes are decided separately, each from its own coordinate;
    afterwards the centre lies within the four inset bounds, both
    velocity components have kept their magnitude, and nothing else of
    the ball has changed. *)
Theorem boundary_resolver q :
  let q' := cushions q in
  ((x (pos q) < tableX1 -> x (pos q') = tableX1 /\ x (vel q') = - x (vel q)) /\
   (tableX2 < x (pos q) -> x (pos q') = tableX2 /\ x (vel q') = - x (vel q)) /\
   (tableX1 <= x (pos q) <= tableX2 ->
      x (pos q') = x (pos q) /\ x (vel q') = x (vel q))) /\
  ((y (pos q) < tableY1 -> y (pos q') = tableY1 /\ y (vel q') = - y (vel q)) /\
   (tableY2 < y (pos q) -> y (pos q') = tableY2 /\ y (vel q') = - y (vel q)) /\
   (tableY1 <= y (pos q) <= tableY2 ->
      y (pos q') = y (pos q) /\ y (vel q') = y (vel q))) /\
  (tableX1 <= x (pos q') <= tableX2 /\ tableY1 <= y (pos q') <= tableY2) /\
  (Rabs (x (vel q')) = Rabs (x (vel q)) /\
   Rabs (y (vel q')) = Rabs (y (vel q))) /\
  (id q' = id q /\ isActive q' = isActive q /\ color q' = color q).
Proof.
  intros q'. subst q'. unfold cushions.
  destruct table_bounds as (HX1 & HX2 & HY1 & HY2).
  rewrite HX1, HX2, HY1, HY2.
  set (q1 := cushion_left q). set (q2 := cushion_right q1).
  set (q3 := cushion_top q2). set (q4 := cushion_bottom q3).
  pose proof (cushion_x_exact tableX1 (f_lt (x (pos q)) tableX1) q) as H1.
  pose proof (cushion_x_exact tableX2 (f_lt tableX2 (x (pos q1))) q1) as H2.
  pose proof (cushion_y_exact tableY1 (f_lt (y (pos q2)) tableY1) q2) as H3.
  pose proof (cushion_y_exact tableY2 (f_lt tableY2 (y (pos q3))) q3) as H4.
  cbv zeta in H1, H2, H3, H4.
  change (if f_lt (x (pos q)) tableX1 then bounce_x tableX1 q else q)
    with q1 in H1.
  change (if f_lt tableX2 (x (pos q1)) then bounce_x tableX2 q1 else q1)
    with q2 in H2.
  change (if f_lt (y (pos q2)) tableY1 then bounce_y tableY1 q2 else q2)
    with q3 in H3.
  change (if f_lt tableY2 (y (pos q3)) then bounce_y tableY2 q3 else q3)
    with q4 in H4.
  clearbody q1 q2 q3 q4.
  rewrite HX1 in H1. rewrite HX2 in H2. rewrite HY1 in H3. rewrite HY2 in H4.
  exact_ops.
  destruct H1 as (H1 & H1y & H1vy & H1i & H1a & H1c).
  destruct H2 as (H2 & H2y & H2vy & H2i & H2a & H2c).
  destruct H3 as (H3 & H3x & H3vx & H3i & H3a & H3c).
  destruct H4 as (H4 & H4x & H4vx & H4i & H4a & H4c).
  assert (Hid : id q4 = id q /\ isActive q4 = isActive q /\ color q4 = color q)
    by (repeat split; congruence).
  assert (Hx : x (pos q4) = x (pos q2) /\ x (vel q4) = x (vel q2))
    by (split; congruence).
  assert (Hy : y (pos q2) = y (pos q) /\ y (vel q2) = y (vel q))
    by (split; congruence).
  destruct Hx as [-> ->]. destruct Hy as [Hpy Hvy].
  rewrite Hpy in H3. clear H1y H1vy H2y H2vy H3x H3vx H4x H4vx
    H1i H1a H1c H2i H2a H2c H3i H3a H3c H4i H4a H4c.
  assert (Hopp : forall u v : R, u = - v -> Rabs u = Rabs v)
    by (intros u v ->; apply Rabs_Ropp).
  assert (Hoppopp : forall u v t : R, u = - t -> t = - v -> Rabs u = Rabs v)
    by (intros u v t -> ->; rewrite Ropp_involutive; reflexivity).
  unfold Rltb in H1, H2, H3, H4.
  destruct (Rlt_dec (x (pos q)) 65) as [Hx1|Hx1]; destruct H1 as [Hp1 Hv1];
    (destruct (Rlt_dec 935 (x (pos q1))) as [Hx2|Hx2]; destruct H2 as [Hp2 Hv2]);
    (destruct (Rlt_dec (y (pos q)) 40) as [Hy1|Hy1]; destruct H3 as [Hp3 Hv3]);
    (destruct (Rlt_dec 460 (y (pos q3))) as [Hy2|Hy2]; destruct H4 as [Hp4 Hv4]);
    (split; [|split; [|split; [|split; [|exact Hid]]]]);
    try (repeat split; intros; lra);
    try (split; first [ apply Hopp; lra
                      | eapply Hoppopp; [eassumption | lra]
                      | f_equal; lra ]).
Qed.

Lemma striker_overlaps_target :
  overlapping striker target = true /\ 0 < dist_sq striker target.
Proof.
  unfold overlapping. rewrite Rltb_true.
  unfold dist_sq, striker, target, mk_ball. cbn [pos x y]. exact_ops.
  change (IZR (BALL_DIAMETER * BALL_DIAMETER)) with 900. split; lra.
Defined.

Lemma velocity_exchange_witness :
  overlapping striker target = true /\ 0 < dist_sq striker target /\
  vel (fst (collide striker target)) = zero_vec /\
  vel (snd (collide striker target)) = vel striker.
Proof.
  destruct striker_overlaps_target as [Hov Hpos].
  split; [assumption|]. split; [assumption|].
  destruct (velocity_exchange striker target Hov Hpos) as (_ & _ & _ & Hhead).
  apply Hhead; [reflexivity|].
  unfold dot, perp, normal, striker, target, mk_ball. cbn [pos vel x y].
  exact_ops. unfold Rdiv. ring.
Defined.

Lemma positional_correction_witness :
  overlapping striker target = true /\ 0 < dist_sq striker target /\
  center_dist (fst (collide striker target)) (snd (collide striker target))
    = 30.
Proof.
  destruct striker_overlaps_target as [Hov Hpos].
  split; [assumption|]. split; [assumption|].
  destruct (positional_correction striker target Hov Hpos) as (_ & _ & _ & Hd).
  exact Hd.
Defined.

Lemma boundary_resolver_witness :
  pos (cushions corner_ball) = {| x := 65; y := 460 |} /\
  vel (cushions corner_ball) = {| x := 3; y := -4 |}.
Proof.
  destruct table_bounds as (HX1 & HX2 & HY1 & HY2).
  destruct (boundary_resolver corner_ball)
    as ((Hxlo & _) & (_ & Hyhi & _) & _).
  destruct Hxlo as [Hpx Hvx].
  { rewrite HX1. unfold corner_ball, mk_ball. cbn [pos x]. lra. }
  destruct Hyhi as [Hpy Hvy].
  { rewrite HY2. unfold corner_ball, mk_ball. cbn [pos y]. lra. }
  rewrite HX1 in Hpx. rewrite HY2 in Hpy.
  destruct (pos (cushions corner_ball)) as [px py].
  destruct (vel (cushions corner_ball)) as [vx vy].
  cbn [x y] in *. subst px py vx vy.
  unfold corner_ball, mk_ball. cbn [vel x y]. split; f_equal; ring.
Defined.

(** *** What the resolution of a pair conserves *)

(** X10.  In exact arithmetic, for an overlapping pair with distinct
    centres, the resolution keeps the sum of the two velocities (the
    momentum, the masses being equal), the sum of the two squared speeds
    (the kinetic energy) and the sum of the two centres. *)
Theorem collide_conserves bi bj :
  overlapping bi bj = true ->
  0 < dist_sq bi bj ->
  let bi' := fst (collide bi bj) in
  let bj' := snd (collide bi bj) in
  (x (vel bi') + x (vel bj') = x (vel bi) + x (vel bj) /\
   y (vel bi') + y (vel bj') = y (vel bi) + y (vel bj)) /\
  energy bi' + energy bj' = energy bi + energy bj /\
  (x (pos bi') + x (pos bj') = x (pos bi) + x (pos bj) /\
   y (pos bi') + y (pos bj') = y (pos bi) + y (pos bj)).
Proof.
  intros Hov Hpos. cbv zeta.
  destruct (pair_geometry bi bj Hpos) as (_ & _ & _ & _ & Hn).
  destruct (collide_resolved bi bj Hov) as (Hpi & Hpj & Hvi & Hvj).
  cbv zeta in Hpi, Hpj, Hvi, Hvj. unfold energy.
  rewrite Hpi, Hpj, Hvi, Hvj. cbn [x y].
  unfold dot in *. exact_ops.
  destruct (vel bi) as [vx vy], (vel bj) as [ux uy]. cbn [x y] in *.
  destruct (normal bi bj) as [nx ny]. cbn [x y] in *.
  set (N := nx * nx + ny * ny) in Hn.
  split; [split; ring|]. split; [|split; ring].
  apply Rminus_diag_uniq.
  transitivity (2 * (ux * nx + uy * ny - (vx * nx + vy * ny))
                  * (ux * nx + uy * ny - (vx * nx + vy * ny)) * (N - 1));
    [unfold N; ring | rewrite Hn; ring].
Qed.

Lemma collide_conserves_witness :
  x (vel (fst (collide striker target))) + x (vel (snd (collide striker target)))
    = 5 /\
  energy (fst (collide striker target)) + energy (snd (collide striker target))
    = 25.
Proof.
  destruct striker_overlaps_target as [Hov Hpos].
  destruct (collide_conserves striker target Hov Hpos) as ((Hx & _) & He & _).
  rewrite Hx, He. unfold energy, striker, target, mk_ball. cbn [vel x y].
  exact_ops. split; ring.
Defined.

End Exact.

(** * Runs of the program in binary32 *)

Section Binary32.

Local Open Scope fl_scope.

(** A run is evaluated once; what follows is read off its result. *)
Ltac run_once w :=
  let v := eval vm_compute in w in
  let Hrun := fresh "Hrun" in
  assert (Hrun : w = v) by (vm_compute; reflexivity);
  rewrite Hrun; clear Hrun.

(** *** Capture of the money ball *)

(** C1.  In [creeping_world] the table is simulating and ball 8, the
    money ball, is in play, creeping towards the side pocket.  In the
    tick ball 8 is potted and the pocket loop sets the state Over; but no
    ball has computed a speed of MIN_VELOCITY or more, [ballsAreMoving]
    is still false when the loop ends, and the test that closes [update]
    overwrites Over with Aiming. *)
Theorem money_ball_capture_overridden :
  let w := creeping_world in
  (gCurrentState w = STATE_SIMULATING /\
   isActive (ball 8 (gBalls w)) = true /\ id (ball 8 (gBalls w)) = 8%Z) /\
  (gCurrentState (fst (balls_loop NUM_BALLS w)) = STATE_GAME_OVER /\
   snd (balls_loop NUM_BALLS w) = false) /\
  (isActive (ball 8 (gBalls (update w))) = false /\
   gCurrentState (update w) = STATE_AIMING).
Proof. vm_compute. repeat split. Qed.

(** *** Coincident centres *)

Lemma sub_self (v : B32.t) :
  B32.finite v = true -> v .- v = S754_zero false.
Proof.
  destruct v as [s| | |s m e]; try discriminate; intros _.
  - destruct s; reflexivity.
  - cbn. rewrite Z.sub_diag. reflexivity.
Qed.

Lemma add_nan (v : B32.t) : v .+ S754_nan = S754_nan.
Proof. destruct v; reflexivity. Qed.

Lemma sub_nan (v : B32.t) : v .- S754_nan = S754_nan.
Proof. destruct v; reflexivity. Qed.

Lemma mul_nan (v : B32.t) : v .* S754_nan = S754_nan.
Proof. destruct v; reflexivity. Qed.

(** X11.  In binary32, whatever the velocities, a pair of balls that
    share one finite centre is taken for overlapping, the distance it is
    divided by is 0, and the positions and velocities of both balls come
    out as NaN. *)
Lemma collide_coincident (bi bj : Ball32) :
  pos bj = pos bi ->
  B32.finite (x (pos bi)) = true -> B32.finite (y (pos bi)) = true ->
  overlapping bi bj = true /\
  center_dist bi bj = S754_zero false /\
  pos (fst (collide bi bj)) = nan_vec /\ pos (snd (collide bi bj)) = nan_vec /\
  vel (fst (collide bi bj)) = nan_vec /\ vel (snd (collide bi bj)) = nan_vec.
Proof.
  intros Hpos Hx Hy.
  assert (Hd : dist_sq bi bj = S754_zero false).
  { unfold dist_sq. cbv zeta.
    rewrite Hpos, !sub_self by assumption. reflexivity. }
  assert (Hov : overlapping bi bj = true).
  { unfold overlapping. rewrite Hd. reflexivity. }
  assert (Hcd : center_dist bi bj = S754_zero false).
  { unfold center_dist. rewrite Hd. reflexivity. }
  assert (Hn : normal bi bj = nan_vec).
  { unfold normal. rewrite Hcd, Hpos, !sub_self by assumption. reflexivity. }
  split; [assumption|]. split; [assumption|].
  destruct (collide_resolved bi bj Hov) as (-> & -> & -> & ->).
  rewrite Hn. unfold nan_vec, dot. cbn [x y].
  rewrite ?mul_nan, ?add_nan, ?sub_nan.
  repeat split.
Qed.

(** C2.  In the world with the cue ball on the centre of ball 1, both
    active and the table simulating, one tick does not skip the pair: the
    positions and the velocities of both balls are NaN afterwards, and
    the table is still simulating three ticks later. *)
Theorem coincident_centres_yield_nan :
  let w := update coincident_world in
  (gCurrentState coincident_world = STATE_SIMULATING /\
   isActive (ball 0 (gBalls coincident_world)) = true /\
   isActive (ball 1 (gBalls coincident_world)) = true /\
   pos (ball 0 (gBalls coincident_world)) = pos (ball 1 (gBalls coincident_world))) /\
  (pos (ball 0 (gBalls w)) = nan_vec /\ pos (ball 1 (gBalls w)) = nan_vec /\
   vel (ball 0 (gBalls w)) = nan_vec /\ vel (ball 1 (gBalls w)) = nan_vec) /\
  gCurrentState (ticks 3 w) = STATE_SIMULATING.
Proof.
  cbv zeta. run_once (update coincident_world).
  vm_compute. repeat split.
Qed.

(** *** Overlaps and escapes at the end of a tick *)

(** C4, the counterexample.  Nine turns after a click at (907, 253) on
    the opening rack, that is at the end of a tick, the active balls 1
    and 7 overlap; and one tick on three balls in a row, whose
    corrections involve no rounding, leaves the centres of balls 0 and 1
    at 95 and 122.5 on the same line, 27.5 apart. *)
Lemma overlap_survives_tick :
  (let w := play (click_then 907 253 7) rack32 in
   gCurrentState w = STATE_SIMULATING /\
   isActive (ball 1 (gBalls (update w))) = true /\
   isActive (ball 7 (gBalls (update w))) = true /\
   overlapping (ball 1 (gBalls (update w))) (ball 7 (gBalls (update w))) = true) /\
  (let w := update row_world in
   gCurrentState row_world = STATE_SIMULATING /\
   isActive (ball 0 (gBalls w)) = true /\ isActive (ball 1 (gBalls w)) = true /\
   x (pos (ball 0 (gBalls w))) = f_of_int 95 /\
   x (pos (ball 1 (gBalls w))) = lit 245 2 /\
   y (pos (ball 0 (gBalls w))) = y (pos (ball 1 (gBalls w))) /\
   overlapping (ball 0 (gBalls w)) (ball 1 (gBalls w)) = true).
Proof.
  cbv zeta. run_once (play (click_then 907 253 7) rack32).
  run_once (update row_world).
  vm_compute. repeat split.
Qed.

(** C10.  Ten turns after a click at (907, 253) on the opening rack the
    table is simulating.  In the next tick ball 7, in its turn, is put
    on the right bound by the cushion step, is then pushed beyond that
    bound by the collisions of the same turn, and is still active and
    beyond the bound when the tick ends. *)
Theorem cushion_escape :
  exists (fs : list (list SDL_Event)) (i : nat),
    let w := play fs rack32 in
    let turn := world_at_turn i w in
    let q := cushions (fst (integrate (ball i (gBalls turn)) false)) in
    gCurrentState w = STATE_SIMULATING /\
    (isActive (ball i (gBalls turn)) = true /\ within_bounds q = true /\
     x (pos q) = tableX2) /\
    (x (pos (ball i (collisions i (<[ i := q ]> (gBalls turn))))) .> tableX2) = true /\
    isActive (ball i (gBalls (update w))) = true /\
    (x (pos (ball i (gBalls (update w)))) .> tableX2) = true /\
    within_bounds (ball i (gBalls (update w))) = false.
Proof.
  exists (click_then 907 253 9), 7%nat.
  cbv zeta. run_once (play (click_then 907 253 9) rack32).
  vm_compute. repeat split.
Qed.

(** *** A NaN ball keeps the table simulating *)

Lemma nan_sub (v : B32.t) : S754_nan .- v = S754_nan.
Proof. destruct v; reflexivity. Qed.
Lemma nan_mul (v : B32.t) : S754_nan .* v = S754_nan.
Proof. destruct v; reflexivity. Qed.
Lemma nan_add (v : B32.t) : S754_nan .+ v = S754_nan.
Proof. destruct v; reflexivity. Qed.
Lemma nan_lt (v : B32.t) : (S754_nan .< v) = false.
Proof. destruct v; reflexivity. Qed.
Lemma lt_nan (v : B32.t) : (v .< S754_nan) = false.
Proof. destruct v; reflexivity. Qed.

Lemma overlapping_nan_l (bi bj : Ball32) :
  pos bi = nan_vec -> overlapping bi bj = false.
Proof.
  intros Hp. unfold overlapping, dist_sq. cbv zeta. rewrite Hp. cbn [x y nan_vec].
  rewrite !sub_nan, !nan_mul, !nan_add. apply nan_lt.
Qed.

Lemma overlapping_nan_r (bi bj : Ball32) :
  pos bj = nan_vec -> overlapping bi bj = false.
Proof.
  intros Hp. unfold overlapping, dist_sq. cbv zeta. rewrite Hp. cbn [x y nan_vec].
  rewrite !nan_sub, !nan_mul, !nan_add. apply nan_lt.
Qed.

Lemma collide_pair_poisoned (k i j : nat) (bs : list Ball32) :
  i <> j -> poisoned (ball k bs) -> poisoned (ball k (collide_pair i j bs)).
Proof.
  intros Hij Hk. pose proof Hk as (_ & Hp & _).
  destruct (decide (k = i)) as [->|Hki].
  - rewrite collide_pair_apart; auto using overlapping_nan_l.
  - destruct (decide (k = j)) as [->|Hkj].
    + rewrite collide_pair_apart; auto using overlapping_nan_r.
    + rewrite collide_pair_untouched; auto.
Qed.

Lemma collisions_poisoned (k i : nat) (bs : list Ball32) :
  poisoned (ball k bs) -> poisoned (ball k (collisions i bs)).
Proof.
  unfold collisions.
  assert (Hjs : Forall (fun j => i <> j) (seq (S i) (NUM_BALLS - S i))).
  { apply Forall_forall. intros j Hj. apply elem_of_seq in Hj. lia. }
  revert bs. induction Hjs as [|j js Hj _ IH]; intros bs Hk; cbn [fold_left].
  - exact Hk.
  - apply IH, collide_pair_poisoned; assumption.
Qed.

Lemma in_pocket_nan (p : Pocket) (q : Ball32) :
  pos q = nan_vec -> in_pocket p q = false.
Proof.
  intros Hp. unfold in_pocket. cbv zeta. rewrite Hp. cbn [x y nan_vec].
  rewrite !sub_nan, !nan_mul, !nan_add. reflexivity.
Qed.

Lemma pocketing_poisoned (k i : nat) (w : World32) :
  poisoned (ball k (gBalls w)) -> poisoned (ball k (gBalls (pocketing i w))).
Proof.
  intros Hk. destruct (decide (k = i)) as [->|Hki];
    [|rewrite pocketing_other; assumption].
  unfold pocketing. generalize (gPockets w) as ps. intros ps. revert w Hk.
  induction ps as [|p ps IH]; intros w Hk; cbn [fold_left].
  - exact Hk.
  - apply IH. unfold pocket_one. rewrite in_pocket_nan; [exact Hk|apply Hk].
Qed.

Lemma integrate_poisoned (q : Ball32) (m : bool) :
  poisoned q -> integrate q m = (q, true).
Proof.
  destruct q as [i act [px py] [vx vy] c]. intros (Ha & Hp & Hv).
  cbn in Ha, Hp, Hv. injection Hp as -> ->. injection Hv as -> ->. subst act.
  reflexivity.
Qed.

Lemma cushions_poisoned (q : Ball32) : pos q = nan_vec -> cushions q = q.
Proof.
  destruct q as [i act [px py] [vx vy] c]. cbn. intros Hp.
  injection Hp as -> ->. reflexivity.
Qed.

Lemma ball_step_poisoned (k i : nat) (w : World32) (m : bool) :
  poisoned (ball k (gBalls w)) ->
  poisoned (ball k (gBalls (fst (ball_step i (w, m))))) /\
  (k = i -> snd (ball_step i (w, m)) = true).
Proof.
  intros Hk. pose proof Hk as (Ha & Hp & Hv). unfold ball_step.
  destruct (decide (k = i)) as [<-|Hki].
  - rewrite Ha. cbn [negb]. rewrite integrate_poisoned by assumption.
    rewrite cushions_poisoned by assumption. cbn [fst snd].
    split; [|reflexivity].
    apply pocketing_poisoned. cbn [gBalls set_gBalls].
    apply collisions_poisoned. rewrite ball_insert_same. exact Hk.
  - split; [|intros; congruence].
    destruct (isActive (ball i (gBalls w))); cbn [negb fst]; [|exact Hk].
    destruct (integrate (ball i (gBalls w)) m) as [q m']. cbn [fst].
    apply pocketing_poisoned. cbn [gBalls set_gBalls].
    apply collisions_poisoned. rewrite ball_insert_ne by assumption. exact Hk.
Qed.

Lemma balls_loop_poisoned (k n : nat) (w : World32) :
  poisoned (ball k (gBalls w)) -> gCurrentState w <> STATE_AIMING ->
  poisoned (ball k (gBalls (fst (balls_loop n w)))) /\
  gCurrentState (fst (balls_loop n w)) <> STATE_AIMING /\
  ((k < n)%nat -> snd (balls_loop n w) = true).
Proof.
  intros Hk Hst. induction n as [|n (IHk & IHst & IHm)].
  - split; [assumption|]. split; [assumption|]. intros Hlt. lia.
  - rewrite balls_loop_S. destruct (balls_loop n w) as [w' m].
    cbn [fst snd] in *.
    destruct (ball_step_poisoned k n w' m IHk) as [Hk' Hm'].
    split; [exact Hk'|]. split; [apply ball_step_state; exact IHst|].
    intros Hlt. destruct (decide (k = n)) as [Heq|Hne]; [auto|].
    rewrite IHm by lia. apply ball_step_keeps_moving.
Qed.

Lemma update_poisoned (k : nat) (w : World32) :
  (k < NUM_BALLS)%nat ->
  poisoned (ball k (gBalls w)) -> gCurrentState w <> STATE_AIMING ->
  poisoned (ball k (gBalls (update w))) /\
  gCurrentState (update w) <> STATE_AIMING.
Proof.
  intros Hlt Hk Hst. unfold update.
  destruct (bool_decide (gCurrentState w = STATE_SIMULATING));
    cbv beta iota delta [negb]; [|split; assumption].
  destruct (balls_loop_poisoned k NUM_BALLS w Hk Hst) as (Hk' & Hst' & Hm).
  destruct (balls_loop NUM_BALLS w) as [w' m]. cbn [fst snd] in *.
  rewrite Hm by assumption. split; assumption.
Qed.

(** Once a ball in play has NaN for its position and velocity, no number
    of ticks brings the table back to Aiming. *)
Theorem nan_never_settles (k : nat) (w : World32) (n : nat) :
  (k < NUM_BALLS)%nat ->
  poisoned (ball k (gBalls w)) -> gCurrentState w <> STATE_AIMING ->
  poisoned (ball k (gBalls (ticks n w))) /\
  gCurrentState (ticks n w) <> STATE_AIMING.
Proof.
  intros Hlt Hk Hst. induction n as [|n [IHk IHst]].
  - split; assumption.
  - cbn [ticks Nat.iter]. apply update_poisoned; assumption.
Qed.

Lemma coincident_world_never_settles (n : nat) :
  gCurrentState (ticks (S n) coincident_world) <> STATE_AIMING.
Proof.
  replace (ticks (S n) coincident_world)
    with (ticks n (update coincident_world)).
  - apply (nan_never_settles 0); [unfold NUM_BALLS; lia| |].
    + vm_compute. repeat split.
    + vm_compute. discriminate.
  - unfold ticks. rewrite Nat.iter_succ_r. reflexivity.
Qed.

(** *** The cushion step in binary32 *)

Lemma cushions_within_bounds32 (q : Ball32) : within_bounds (cushions q) = true.
Proof. apply cushions_within_bounds. vm_compute. reflexivity. Qed.

Lemma shr_fexp_canonical (m : positive) (e : Z) :
  fexp B32.prec B32.emax (Z.pos (digits2_pos m) + e) = e ->
  shr_fexp B32.prec B32.emax (Z.pos m) e loc_Exact =
    ({| shr_m := Z.pos m; shr_r := false; shr_s := false |}, e).
Proof.
  intros Hcan. unfold shr_fexp, Zdigits2. rewrite Hcan, Z.sub_diag.
  reflexivity.
Qed.

Lemma shr_fexp_shifted (m : positive) (e : Z) :
  fexp B32.prec B32.emax (Z.pos (digits2_pos m) + e) = e ->
  shr_fexp B32.prec B32.emax (Z.pos (m * 8388608)) (e + -23) loc_Exact =
    ({| shr_m := Z.pos m; shr_r := false; shr_s := false |}, e).
Proof.
  intros Hcan. unfold shr_fexp, Zdigits2.
  rewrite Pos.mul_comm.
  change (8388608 * m)%positive
    with (m~0~0~0~0~0~0~0~0~0~0~0~0~0~0~0~0~0~0~0~0~0~0~0)%positive.
  cbn [digits2_pos].
  rewrite !Pos2Z.inj_succ.
  replace (Z.succ _ + (e + -23))%Z with (Z.pos (digits2_pos m) + e)%Z by lia.
  rewrite Hcan.
  replace (e - (e + -23))%Z with 23%Z by lia.
  unfold shr. cbn. f_equal. lia.
Qed.

(** Multiplying a binary32 number by -1.0f flips its sign. *)
Lemma mul_minus_one (v : B32.t) :
  valid_binary B32.prec B32.emax v = true ->
  f_mul v (f_of_int (-1)) = f_neg v.
Proof.
  intros Hv. destruct v as [s|s| |s m e]; try (destruct s; reflexivity);
    try reflexivity.
  cbn in Hv. apply andb_prop in Hv as [Hcan Hle].
  unfold canonical_mantissa in Hcan. apply Z.eqb_eq in Hcan.
  change (f_of_int (-1)) with (S754_finite true 8388608 (-23)).
  cbn [f_mul binary32 f_neg SFmul SFopp].
  rewrite xorb_true_r.
  unfold binary_round_aux.
  rewrite (shr_fexp_shifted m e Hcan).
  cbn [shr_m loc_of_shr_record round_nearest_even].
  rewrite (shr_fexp_canonical m e Hcan). cbn [shr_m].
  rewrite Hle. reflexivity.
Qed.

(** A bounce off a cushion flips the sign of the velocity component, bit
    for bit. *)
Lemma bounce_x32 (X : B32.t) (q : Ball32) :
  valid_binary B32.prec B32.emax (x (vel q)) = true ->
  x (pos (bounce_x X q)) = X /\ x (vel (bounce_x X q)) = f_neg (x (vel q)).
Proof.
  intros Hv. unfold bounce_x. cbn [pos vel x set_pos set_vel set_x].
  rewrite mul_minus_one by assumption. split; reflexivity.
Qed.

Lemma bounce_y32 (Y : B32.t) (q : Ball32) :
  valid_binary B32.prec B32.emax (y (vel q)) = true ->
  y (pos (bounce_y Y q)) = Y /\ y (vel (bounce_y Y q)) = f_neg (y (vel q)).
Proof.
  intros Hv. unfold bounce_y. cbn [pos vel y set_pos set_vel set_y].
  rewrite mul_minus_one by assumption. split; reflexivity.
Qed.

(** *** The cushion step on numbers, and on NaN *)

(** Comparing the other way round gives the opposite answer, and no
    answer for a NaN. *)
Lemma SFcompare_antisym (a b : spec_float) :
  SFcompare b a = option_map CompOpp (SFcompare a b).
Proof.
  destruct a as [sa|sa| |sa ma ea], b as [sb|sb| |sb mb eb]; cbn;
    try reflexivity;
    try (destruct sa; reflexivity); try (destruct sb; reflexivity);
    try (destruct sa, sb; reflexivity).
  f_equal. rewrite (Z.compare_antisym ea eb).
  change (Pos.compare_cont Eq mb ma)
    with (Pos.compare_cont (CompOpp Eq) mb ma).
  rewrite <- (Pos.compare_cont_antisym ma mb Eq).
  destruct sa, sb; cbn; try reflexivity;
    destruct (ea ?= eb)%Z; cbn; try reflexivity;
    destruct (Pos.compare_cont Eq ma mb); reflexivity.
Qed.

(** Between two numbers, "not below" is "at least". *)
Lemma not_lt_le (a b : B32.t) :
  B32.is_nan a = false -> B32.is_nan b = false ->
  SFltb a b = false -> SFleb b a = true.
Proof.
  unfold SFltb, SFleb. rewrite (SFcompare_antisym a b).
  intros Ha Hb.
  destruct (SFcompare a b) as [[ | | ]|] eqn:Hc; cbn; try congruence.
  destruct a, b; cbn in *; try discriminate.
Qed.

(** The four inset bounds 65, 935, 40 and 460 as binary32 numbers. *)
Lemma table_bounds32 :
  @tableX1 _ binary32 = S754_finite false 8519680 (-17) /\
  @tableX2 _ binary32 = S754_finite false 15319040 (-14) /\
  @tableY1 _ binary32 = S754_finite false 10485760 (-18) /\
  @tableY2 _ binary32 = S754_finite false 15073280 (-15).
Proof. vm_compute. repeat split. Qed.

(** A coordinate above the high bound is not below the low one. *)
Lemma above_high_not_below_low_x (v : B32.t) :
  (v .> tableX2) = true -> (v .< tableX1) = false.
Proof.
  destruct table_bounds32 as (-> & -> & _ & _).
  destruct v as [s|s| |[|] m e]; try (destruct s); try discriminate;
    try reflexivity.
  unfold f_lt, binary32, SFltb, SFcompare.
  destruct (Z.compare_spec (-14) e) as [<-|Hlt|Hgt]; try discriminate.
  - intros _. reflexivity.
  - intros _. destruct (Z.compare_spec e (-17)) as [->|Hl|Hg]; try lia.
Qed.

Lemma above_high_not_below_low_y (v : B32.t) :
  (v .> tableY2) = true -> (v .< tableY1) = false.
Proof.
  destruct table_bounds32 as (_ & _ & -> & ->).
  destruct v as [s|s| |[|] m e]; try (destruct s); try discriminate;
    try reflexivity.
  unfold f_lt, binary32, SFltb, SFcompare.
  destruct (Z.compare_spec (-15) e) as [<-|Hlt|Hgt]; try discriminate.
  - intros _. reflexivity.
  - intros _. destruct (Z.compare_spec e (-18)) as [->|Hl|Hg]; try lia.
Qed.

(** One axis of the cushion step: the coordinate [c] against its bounds
    [lo] and [hi], in the order of the program. *)
Lemma clamped_between (lo hi c : B32.t) :
  B32.is_nan c = false -> B32.is_nan lo = false -> B32.is_nan hi = false ->
  SFleb lo lo = true -> SFleb hi hi = true -> SFleb lo hi = true ->
  let c' := if c .< lo then lo else if c .> hi then hi else c in
  SFleb lo c' && SFleb c' hi = true.
Proof.
  intros Hc Hlo Hhi Hll Hhh Hlh. cbv zeta.
  destruct (c .< lo) eqn:H1; [rewrite Hll, Hlh; reflexivity|].
  destruct (c .> hi) eqn:H2; [rewrite Hlh, Hhh; reflexivity|].
  rewrite (not_lt_le c lo Hc Hlo H1), (not_lt_le hi c Hhi Hc H2). reflexivity.
Qed.

Lemma abs_neg (v : B32.t) : SFabs (f_neg v) = SFabs v.
Proof. destruct v; reflexivity. Qed.

(** C5, as amended.  In binary32, for a ball whose centre coordinates
    are not NaN and whose velocity components are binary32 values: a
    coordinate that compares below its low bound or above its high bound
    is set to that bound and the sign of the velocity component of that
    axis is flipped; a coordinate that compares beyond neither bound is
    kept with its velocity component; the two axes are decided
    separately, each from its own coordinate; afterwards the centre lies
    between the four inset bounds, both velocity components have kept
    their magnitude bit for bit, and nothing else of the ball has
    changed. *)
Theorem boundary_resolver32 (q : Ball32) :
  B32.is_nan (x (pos q)) = false ->
  B32.is_nan (y (pos q)) = false ->
  valid_binary B32.prec B32.emax (x (vel q)) = true ->
  valid_binary B32.prec B32.emax (y (vel q)) = true ->
  let q' := cushions q in
  (((x (pos q) .< tableX1) = true ->
      x (pos q') = tableX1 /\ x (vel q') = f_neg (x (vel q))) /\
   ((x (pos q) .> tableX2) = true ->
      x (pos q') = tableX2 /\ x (vel q') = f_neg (x (vel q))) /\
   ((x (pos q) .< tableX1) = false -> (x (pos q) .> tableX2) = false ->
      x (pos q') = x (pos q) /\ x (vel q') = x (vel q))) /\
  (((y (pos q) .< tableY1) = true ->
      y (pos q') = tableY1 /\ y (vel q') = f_neg (y (vel q))) /\
   ((y (pos q) .> tableY2) = true ->
      y (pos q') = tableY2 /\ y (vel q') = f_neg (y (vel q))) /\
   ((y (pos q) .< tableY1) = false -> (y (pos q) .> tableY2) = false ->
      y (pos q') = y (pos q) /\ y (vel q') = y (vel q))) /\
  contained32 q' = true /\
  (SFabs (x (vel q')) = SFabs (x (vel q)) /\
   SFabs (y (vel q')) = SFabs (y (vel q))) /\
  (id q' = id q /\ isActive q' = isActive q /\ color q' = color q).
Proof.
  intros Hpx Hpy Hvx Hvy q'. subst q'.
  (* the two y steps do not touch the x axis, nor the x steps the y axis *)
  assert (Hy : forall p : Ball32,
            x (pos (cushion_bottom (cushion_top p))) = x (pos p) /\
            x (vel (cushion_bottom (cushion_top p))) = x (vel p)).
  { intros p. unfold cushion_bottom, cushion_top.
    destruct (y (pos p) .< tableY1);
      match goal with |- context [if ?c then _ else _] => destruct c end;
      split; reflexivity. }
  assert (Hx : forall p : Ball32,
            y (pos (cushion_right (cushion_left p))) = y (pos p) /\
            y (vel (cushion_right (cushion_left p))) = y (vel p)).
  { intros p. unfold cushion_right, cushion_left.
    destruct (x (pos p) .< tableX1);
      match goal with |- context [if ?c then _ else _] => destruct c end;
      split; reflexivity. }
  (* the x axis *)
  assert (Hxs : x (pos (cushions q)) =
                  (if x (pos q) .< tableX1 then tableX1
                   else if x (pos q) .> tableX2 then tableX2 else x (pos q)) /\
                x (vel (cushions q)) =
                  (if x (pos q) .< tableX1 then f_neg (x (vel q))
                   else if x (pos q) .> tableX2 then f_neg (x (vel q))
                   else x (vel q))).
  { unfold cushions. destruct (Hy (cushion_right (cushion_left q))) as [-> ->].
    unfold cushion_right, cushion_left.
    destruct (x (pos q) .< tableX1) eqn:Hlo.
    - destruct (bounce_x32 tableX1 q Hvx) as [Hp Hv].
      rewrite Hp. change (tableX1 .> tableX2) with false. cbv iota.
      rewrite Hp, Hv. split; reflexivity.
    - destruct (x (pos q) .> tableX2) eqn:Hhi.
      + destruct (bounce_x32 tableX2 q Hvx) as [Hp Hv]. rewrite Hp, Hv.
        split; reflexivity.
      + split; reflexivity. }
  (* the y axis *)
  assert (Hys : y (pos (cushions q)) =
                  (if y (pos q) .< tableY1 then tableY1
                   else if y (pos q) .> tableY2 then tableY2 else y (pos q)) /\
                y (vel (cushions q)) =
                  (if y (pos q) .< tableY1 then f_neg (y (vel q))
                   else if y (pos q) .> tableY2 then f_neg (y (vel q))
                   else y (vel q))).
  { unfold cushions. destruct (Hx q) as [Hpy' Hvy'].
    set (p := cushion_right (cushion_left q)) in *. clearbody p.
    rewrite <- Hpy', <- Hvy'. rewrite <- Hvy' in Hvy.
    unfold cushion_bottom, cushion_top.
    destruct (y (pos p) .< tableY1) eqn:Hlo.
    - destruct (bounce_y32 tableY1 p Hvy) as [Hp Hv].
      rewrite Hp. change (tableY1 .> tableY2) with false. cbv iota.
      rewrite Hp, Hv. split; reflexivity.
    - destruct (y (pos p) .> tableY2) eqn:Hhi.
      + destruct (bounce_y32 tableY2 p Hvy) as [Hp Hv]. rewrite Hp, Hv.
        split; reflexivity.
      + split; reflexivity. }
  destruct Hxs as [Hxp Hxv], Hys as [Hyp Hyv].
  split; [|split; [|split; [|split]]].
  - rewrite Hxp, Hxv. split; [|split].
    + intros ->. split; reflexivity.
    + intros Hhi. rewrite (above_high_not_below_low_x _ Hhi), Hhi.
      split; reflexivity.
    + intros -> ->. split; reflexivity.
  - rewrite Hyp, Hyv. split; [|split].
    + intros ->. split; reflexivity.
    + intros Hhi. rewrite (above_high_not_below_low_y _ Hhi), Hhi.
      split; reflexivity.
    + intros -> ->. split; reflexivity.
  - unfold contained32. rewrite <- andb_assoc, Hxp, Hyp.
    rewrite (clamped_between tableX1 tableX2 (x (pos q)));
      try assumption; try reflexivity.
    apply (clamped_between tableY1 tableY2 (y (pos q)));
      try assumption; reflexivity.
  - rewrite Hxv, Hyv. split.
    + destruct (x (pos q) .< tableX1); [apply abs_neg|].
      destruct (x (pos q) .> tableX2); [apply abs_neg|reflexivity].
    + destruct (y (pos q) .< tableY1); [apply abs_neg|].
      destruct (y (pos q) .> tableY2); [apply abs_neg|reflexivity].
  - unfold cushions, cushion_bottom, cushion_top, cushion_right, cushion_left.
    repeat match goal with |- context [if ?c then _ else _] => destruct c end;
      repeat split.
Qed.

Lemma boundary_resolver32_witness :
  pos (cushions corner32) = {| x := f_of_int 65; y := f_of_int 460 |} /\
  vel (cushions corner32) = {| x := f_of_int 3; y := f_of_int (-4) |} /\
  contained32 (cushions corner32) = true.
Proof.
  destruct (boundary_resolver32 corner32)
    as ((Hxlo & _) & (_ & Hyhi & _) & Hin & _); try reflexivity.
  destruct Hxlo as [Hpx Hvx]; [reflexivity|].
  destruct Hyhi as [Hpy Hvy]; [reflexivity|].
  split; [|split; [|exact Hin]].
  - destruct (pos (cushions corner32)) as [px py]. cbn [x y] in *.
    subst px py. reflexivity.
  - destruct (vel (cushions corner32)) as [vx vy]. cbn [x y] in *.
    subst vx vy. reflexivity.
Defined.

(** C5, the counterexample.  The cue ball that the tick on
    [coincident_world] leaves behind is active with a NaN centre; the
    cushion step passes it unchanged, no comparison of lines 278-281
    being true of a NaN, and its centre does not lie between the
    bounds. *)
Lemma nan_centre_unclamped :
  let q := ball 0 (gBalls (update coincident_world)) in
  isActive q = true /\
  pos q = nan_vec /\
  pos (cushions q) = nan_vec /\
  within_bounds (cushions q) = true /\
  contained32 (cushions q) = false.
Proof. vm_compute. repeat split. Qed.

(** *** The velocity exchange with rounding *)

(** The head-on test of the spec, bit for bit: the moving ball stops and
    the ball at rest leaves with velocity (5, 0). *)
Lemma head_on_exchange32 :
  overlapping striker32 target32 = true /\
  vel (fst (collide striker32 target32)) = zero_vec /\
  vel (snd (collide striker32 target32)) = vel striker32.
Proof. vm_compute. repeat split. Qed.

(** C3, the counterexample.  In binary32 a ball with the velocity (3, 5)
    hits head-on (its velocity has no component across the normal, even
    as computed) a ball at rest at (3, 5) from its centre.  After the
    resolution it keeps the velocity (-2^-21, -2^-20), whose component
    along the normal is not zero, and the ball at rest has received more
    than the incoming normal component. *)
Lemma head_on_residue32 :
  let n := normal oblique32 resting32 in
  let bi' := fst (collide oblique32 resting32) in
  let bj' := snd (collide oblique32 resting32) in
  overlapping oblique32 resting32 = true /\
  vel resting32 = zero_vec /\
  dot (vel oblique32) (perp n) = f_of_int 0 /\
  vel bi' = {| x := S754_finite true 8388608 (-44);
               y := S754_finite true 8388608 (-43) |} /\
  (dot (vel bi') n .< f_of_int 0) = true /\
  (dot (vel oblique32) n .< dot (vel bj') n) = true.
Proof. vm_compute. repeat split. Qed.

(** *** The state machine on concrete worlds *)

Lemma settling_transition_witness :
  gCurrentState slow_world = STATE_SIMULATING /\
  gCurrentState (update slow_world) = STATE_AIMING /\
  vel (ball 0 (gBalls slow_world)) = {| x := lit 1 10; y := f_of_int 0 |} /\
  vel (ball 0 (gBalls (update slow_world))) = zero_vec.
Proof.
  assert (Hst : gCurrentState slow_world = STATE_SIMULATING) by reflexivity.
  assert (Hslow : forall i, (i < NUM_BALLS)%nat ->
            isActive (ball i (gBalls slow_world)) = true ->
            slow (ball i (gBalls (world_at_turn i slow_world))) = true).
  { intros i Hi _. unfold NUM_BALLS in Hi.
    do 16 (destruct i as [|i]; [vm_compute; reflexivity|]). lia. }
  destruct (settling_transition slow_world Hst Hslow) as [Hend Hballs].
  split; [exact Hst|]. split; [exact Hend|]. split; [reflexivity|].
  destruct (Hballs 0%nat) as (_ & _ & Hrest);
    [unfold NUM_BALLS; lia | reflexivity |].
  apply Hrest; [vm_compute; reflexivity|].
  intros j Hj _. unfold NUM_BALLS in Hj.
  destruct j as [|j]; [lia|].
  do 15 (destruct j as [|j]; [vm_compute; reflexivity|]). lia.
Defined.

(** C6, the counterexample.  In [nudged_world] every ball is slow, at
    the start of the tick and in its turn.  The cue ball is stopped by
    its integration step, and the collision scan of the same turn then
    hands it the velocity of ball 1: the tick ends in the state Aiming
    with the cue ball active and moving at 103/1024, above
    MIN_VELOCITY. *)
Lemma settled_yet_moving :
  let w' := update nudged_world in
  gCurrentState nudged_world = STATE_SIMULATING /\
  forallb (fun i => slow (ball i (gBalls nudged_world))) (seq 0 NUM_BALLS) = true /\
  forallb (fun i => slow (ball i (gBalls (world_at_turn i nudged_world))))
          (seq 0 NUM_BALLS) = true /\
  gCurrentState w' = STATE_AIMING /\
  isActive (ball 0 (gBalls w')) = true /\
  vel (ball 0 (gBalls w')) = {| x := f_neg (lit 103 1024); y := f_of_int 0 |} /\
  (MIN_VELOCITY .< speed_of (ball 0 (gBalls w'))) = true.
Proof. vm_compute. repeat split. Qed.

Lemma shoot_scaling_witness :
  gCurrentState rack32 = STATE_AIMING /\
  isActive (ball 0 (gBalls rack32)) = true /\
  x (pos (ball 0 (gBalls rack32))) = f_of_int 250 /\
  vel (ball 0 (gBalls (handle_event (SDL_MOUSEBUTTONDOWN 350 250) rack32))) =
    {| x := f_neg (f_of_int 100) .* CUE_POWER_MULTIPLIER;
       y := f_neg (f_of_int 0) .* CUE_POWER_MULTIPLIER |} /\
  gCurrentState (handle_event (SDL_MOUSEBUTTONDOWN 350 250) rack32)
    = STATE_SIMULATING.
Proof.
  assert (Hst : gCurrentState rack32 = STATE_AIMING) by reflexivity.
  assert (Hact : isActive (ball 0 (gBalls rack32)) = true)
    by (vm_compute; reflexivity).
  destruct (shoot_scaling rack32 350 250 Hst Hact) as (Hcue & _ & Hsim).
  split; [exact Hst|]. split; [exact Hact|].
  split; [vm_compute; reflexivity|].
  split; [|exact Hsim].
  rewrite Hcue. vm_compute. reflexivity.
Defined.

Lemma shoot_ignored_witness :
  handle_event (SDL_MOUSEBUTTONDOWN 350 250) slow_world = slow_world /\
  handle_event (SDL_MOUSEBUTTONDOWN 350 250) over_world = over_world /\
  update over_world = over_world /\
  gCurrentState (handle_event (SDL_KEYDOWN SDLK_r) over_world) = STATE_AIMING.
Proof.
  destruct (shoot_ignored slow_world 350 250) as [Hsim _].
  destruct (shoot_ignored over_world 350 250) as [Hover Hexit].
  destruct (Hexit eq_refl) as (Htick & _ & Hreset).
  split; [apply Hsim; left; discriminate|].
  split; [apply Hover; left; discriminate|].
  split; assumption.
Defined.

Lemma inactive_frozen_witness :
  isActive (ball 5 (gBalls potted_world)) = false /\
  ball 5 (gBalls (play (click_then 0 250 20) potted_world))
    = ball 5 (gBalls potted_world).
Proof.
  assert (Hpot : isActive (ball 5 (gBalls potted_world)) = false)
    by (vm_compute; reflexivity).
  split; [exact Hpot|].
  apply (inactive_frozen potted_world 5 (click_then 0 250 20) Hpot).
  unfold click_then. repeat constructor.
Defined.

End Binary32.

(** * Rendering *)

Section Rendering.

Lemma in_upto (n v : Z) : In v (upto n) <-> 0 <= v < n.
Proof.
  unfold upto. rewrite in_map_iff. split.
  - intros (k & <- & Hk%in_seq). lia.
  - intros Hv. exists (Z.to_nat v). split; [lia|]. apply in_seq. lia.
Qed.

Lemma in_from_to (lo hi v : Z) : In v (from_to lo hi) <-> lo <= v <= hi.
Proof.
  unfold from_to. rewrite in_map_iff. split.
  - intros (k & <- & Hk%in_upto). lia.
  - intros Hv. exists (v - lo). split; [lia|]. apply in_upto. lia.
Qed.

Lemma int_op_Some (z : Z) :
  -2147483648 <= z <= 2147483647 -> int_op z = Some z.
Proof.
  intros Hz. unfold int_op, in_int.
  destruct (Z.leb_spec (-2147483648) z); [|lia].
  destruct (Z.leb_spec z 2147483647); [reflexivity|lia].
Qed.

Lemma int_op_inv (z v : Z) :
  int_op z = Some v -> v = z /\ -2147483648 <= z <= 2147483647.
Proof.
  unfold int_op, in_int.
  destruct (Z.leb_spec (-2147483648) z); [|discriminate].
  destruct (Z.leb_spec z 2147483647); [|discriminate].
  intros [= <-]. lia.
Qed.

Lemma in_int_range (z : Z) :
  in_int z = true <-> -2147483648 <= z <= 2147483647.
Proof. unfold in_int. rewrite andb_true_iff, !Z.leb_le. reflexivity. Qed.

Lemma in_turn_map {A} (body : A -> option (list Draw)) (g : A -> list Draw) vs :
  (forall v, In v vs -> body v = Some (g v)) ->
  in_turn (map body vs) = Some (flat_map g vs).
Proof.
  induction vs as [|v vs IH]; intros Hb; [reflexivity|].
  cbn [map in_turn flat_map]. rewrite (Hb v) by (left; reflexivity).
  rewrite IH by (intros u Hu; apply Hb; right; exact Hu). reflexivity.
Qed.

Lemma in_turn_None steps : In None steps -> in_turn steps = None.
Proof.
  induction steps as [|s steps IH]; intros Hin; [destruct Hin|].
  destruct Hin as [->|Hin]; [reflexivity|].
  cbn [in_turn]. rewrite (IH Hin). destruct s; reflexivity.
Qed.

Lemma sq_le_bound (d r : Z) : 0 <= r -> d * d <= r * r -> - r <= d <= r.
Proof. intros Hr Hd. split; nia. Qed.

Lemma circle_points_box (cx cy r px py : Z) :
  In (RenderDrawPoint px py) (circle_points cx cy r) <->
  - r < px - cx <= r /\ - r < py - cy <= r /\
  (px - cx) * (px - cx) + (py - cy) * (py - cy) <= r * r.
Proof.
  unfold circle_points. split.
  - intros Hin.
    apply in_flat_map in Hin as (w & Hw%in_upto & Hin).
    apply in_flat_map in Hin as (h & Hh%in_upto & Hin).
    destruct (Z.leb_spec ((r - w) * (r - w) + (r - h) * (r - h)) (r * r))
      as [Hle|Hgt]; [|contradiction].
    destruct Hin as [Heq|[]]. injection Heq as <- <-.
    replace (cx + (r - w) - cx) with (r - w) by ring.
    replace (cy + (r - h) - cy) with (r - h) by ring.
    repeat split; try lia.
  - intros (Hx & Hy & Hd).
    apply in_flat_map. exists (r - (px - cx)). split; [apply in_upto; lia|].
    apply in_flat_map. exists (r - (py - cy)). split; [apply in_upto; lia|].
    replace (r - (r - (px - cx))) with (px - cx) by ring.
    replace (r - (r - (py - cy))) with (py - cy) by ring.
    destruct (Z.leb_spec ((px - cx) * (px - cx) + (py - cy) * (py - cy)) (r * r))
      as [Hle|Hgt]; [|lia].
    left. f_equal; ring.
Qed.

Lemma circle_points_disc (cx cy r px py : Z) :
  0 <= r ->
  In (RenderDrawPoint px py) (circle_points cx cy r) <->
  (px - cx) * (px - cx) + (py - cy) * (py - cy) <= r * r /\
  (px, py) <> (cx - r, cy) /\ (px, py) <> (cx, cy - r).
Proof.
  intros Hr. rewrite circle_points_box. split.
  - intros (Hx & Hy & Hd). split; [exact Hd|].
    split; intros Heq; injection Heq as Hpx Hpy; lia.
  - intros (Hd & Hl & Ht).
    pose proof (Z.square_nonneg (px - cx)) as Hx0.
    pose proof (Z.square_nonneg (py - cy)) as Hy0.
    assert (Hxr : - r <= px - cx <= r) by (apply sq_le_bound; lia).
    assert (Hyr : - r <= py - cy <= r) by (apply sq_le_bound; lia).
    split; [|split; [|exact Hd]].
    + split; [|lia].
      destruct (Z.eq_dec (px - cx) (- r)) as [He|Hn]; [|lia].
      exfalso. apply Hl. rewrite He in Hd.
      assert (Hz : (py - cy) * (py - cy) <= 0) by lia.
      assert (py - cy = 0) by nia. f_equal; lia.
    + split; [|lia].
      destruct (Z.eq_dec (py - cy) (- r)) as [He|Hn]; [|lia].
      exfalso. apply Ht. rewrite He in Hd.
      assert (Hz : (px - cx) * (px - cx) <= 0) by lia.
      assert (px - cx = 0) by nia. f_equal; lia.
Qed.

Lemma circle_points_only (cx cy r : Z) :
  Forall (fun d => exists px py, d = RenderDrawPoint px py) (circle_points cx cy r).
Proof.
  apply List.Forall_forall. intros d Hin. unfold circle_points in Hin.
  apply in_flat_map in Hin as (w & _ & Hin).
  apply in_flat_map in Hin as (h & _ & Hin).
  destruct (_ <=? _); [|destruct Hin].
  destruct Hin as [<-|[]]. eauto.
Qed.

Lemma draw_circle_defined (cx cy r : Z) (c : SDL_Color) :
  0 <= r <= 32767 ->
  -2147483648 <= cx - r -> cx + r <= 2147483647 ->
  -2147483648 <= cy - r -> cy + r <= 2147483647 ->
  draw_circle cx cy r c = Some (SetRenderDrawColor c :: circle_points cx cy r).
Proof.
  intros Hr Hx1 Hx2 Hy1 Hy2. unfold draw_circle.
  rewrite (int_op_Some (r * 2)) by lia. cbn [and_then].
  rewrite (in_turn_map _ (fun w =>
    flat_map (fun h =>
      if (r - w) * (r - w) + (r - h) * (r - h) <=? r * r
      then [RenderDrawPoint (cx + (r - w)) (cy + (r - h))]
      else []) (upto (r * 2)))); [reflexivity|].
  intros w Hw%in_upto. apply in_turn_map. intros h Hh%in_upto.
  assert (Hsq : forall v, 0 <= v < r * 2 -> 0 <= (r - v) * (r - v) <= r * r).
  { intros v Hv. split; [apply Z.square_nonneg|].
    replace ((r - v) * (r - v)) with (r * r - v * (2 * r - v)) by ring.
    assert (0 <= v * (2 * r - v)) by (apply Z.mul_nonneg_nonneg; lia). lia. }
  pose proof (Hsq w Hw) as Hw2. pose proof (Hsq h Hh) as Hh2.
  assert (Hr2 : r * r <= 32767 * 32767) by nia.
  repeat (rewrite int_op_Some by lia; cbn [and_then]).
  destruct (_ <=? _); reflexivity.
Qed.



(** *** What a pixel shows after draw_ball *)

Lemma classic_in (l : list Draw) (qx qy : Z) :
  In (RenderDrawPoint qx qy) l \/ ~ In (RenderDrawPoint qx qy) l.
Proof. destruct (in_dec Draw_eq_dec (RenderDrawPoint qx qy) l); [left|right]; assumption. Qed.

Lemma fold_points (p : Z * Z) (l : list Draw) (k : SDL_Color) o :
  Forall (fun d => exists px py, d = RenderDrawPoint px py) l ->
  exists o', fold_left (point_step p) l (k, o) = (k, o') /\
    (In (RenderDrawPoint (fst p) (snd p)) l -> o' = Some k) /\
    (~ In (RenderDrawPoint (fst p) (snd p)) l -> o' = o).
Proof.
  revert o. induction l as [|d l IH]; intros o Hall.
  - exists o. cbn. split; [reflexivity|]. split; [intros []|reflexivity].
  - apply List.Forall_cons_iff in Hall as [(qx & qy & ->) Hall].
    cbn [fold_left point_step fst snd].
    destruct (bool_decide_reflect ((qx, qy) = p)) as [Heq|Hne].
    + destruct (IH (Some k) Hall) as (o' & Hf & Hin & Hout).
      exists o'. split; [exact Hf|]. subst p. cbn [fst snd].
      assert (Ho' : o' = Some k).
      { destruct (classic_in l qx qy) as [Hi|Hi]; [apply Hin|apply Hout]; exact Hi. }
      split; [intros _; exact Ho'|].
      intros Hn. exfalso. apply Hn. left. reflexivity.
    + destruct (IH o Hall) as (o' & Hf & Hin & Hout).
      exists o'. split; [exact Hf|]. split.
      * intros [Heq|Hi]; [|apply Hin; exact Hi].
        exfalso. apply Hne. injection Heq as -> ->. destruct p; reflexivity.
      * intros Hn. apply Hout. intros Hi. apply Hn. right. exact Hi.
Qed.


Lemma fold_row (px py cx cy w : Z) (k : Z -> SDL_Color) (cond : Z -> bool) hs st :
  snd (fold_left (point_step (px, py))
         (flat_map (fun h => if cond h
                             then [SetRenderDrawColor (k h);
                                   RenderDrawPoint (cx + w) (cy + h)]
                             else []) hs) st) =
  if (px =? cx + w) && existsb (fun h => cond h && (h =? py - cy)) hs
  then Some (k (py - cy)) else snd st.
Proof.
  revert st. induction hs as [|h hs IH]; intros st.
  - cbn. rewrite andb_false_r. reflexivity.
  - cbn [flat_map existsb]. rewrite fold_left_app, IH.
    destruct (cond h); cbn [fold_left point_step fst snd andb orb];
      [|reflexivity].
    destruct (bool_decide_reflect ((cx + w, cy + h) = (px, py))) as [Heq|Hne].
    + injection Heq as Hx Hy.
      replace (py - cy) with h by lia.
      rewrite Z.eqb_refl, (proj2 (Z.eqb_eq px (cx + w))) by lia.
      cbn [andb orb fst snd].
      match goal with |- context [existsb ?f hs] => destruct (existsb f hs) end;
        reflexivity.
    + destruct (Z.eqb_spec px (cx + w)) as [Hx|Hx]; [|reflexivity].
      destruct (Z.eqb_spec h (py - cy)) as [Hy|Hy]; [|reflexivity].
      exfalso. apply Hne. f_equal; lia.
Qed.

Lemma fold_rows (px py cx cy : Z) (k : Z -> SDL_Color) (cond : Z -> Z -> bool)
    ws hs st :
  snd (fold_left (point_step (px, py))
         (flat_map (fun w =>
            flat_map (fun h => if cond w h
                               then [SetRenderDrawColor (k h);
                                     RenderDrawPoint (cx + w) (cy + h)]
                               else []) hs) ws) st) =
  if existsb (fun w => (px =? cx + w) &&
                       existsb (fun h => cond w h && (h =? py - cy)) hs) ws
  then Some (k (py - cy)) else snd st.
Proof.
  revert st. induction ws as [|w ws IH]; intros st; [reflexivity|].
  cbn [flat_map existsb]. rewrite fold_left_app, IH.
  rewrite (fold_row px py cx cy w k (cond w)).
  destruct (existsb _ ws); [rewrite orb_true_r; reflexivity|].
  rewrite orb_false_r. reflexivity.
Qed.

Lemma stripe_rows (h : Z) :
  - BALL_RADIUS <= h <= BALL_RADIUS -> stripe_row h = (Z.abs h <=? 4).
Proof.
  intros Hh%in_from_to.
  assert (Hall : forallb (fun h => Bool.eqb (stripe_row h) (Z.abs h <=? 4))
                   (from_to (- BALL_RADIUS) BALL_RADIUS) = true)
    by (vm_compute; reflexivity).
  rewrite forallb_forall in Hall. apply Bool.eqb_prop, Hall, Hh.
Qed.

Lemma fill_reaches (px py cx cy : Z) :
  existsb (fun w => (px =? cx + w) &&
     existsb (fun h => (w * w + h * h <=? BALL_RADIUS * BALL_RADIUS) &&
                       (h =? py - cy))
       (from_to (- BALL_RADIUS) BALL_RADIUS))
    (from_to (- BALL_RADIUS) BALL_RADIUS) =
  ((px - cx) * (px - cx) + (py - cy) * (py - cy) <=? BALL_RADIUS * BALL_RADIUS).
Proof.
  apply eq_true_iff_eq. rewrite existsb_exists, Z.leb_le. split.
  - intros (w & _ & (Hw%Z.eqb_eq & Hex)%andb_true_iff).
    apply existsb_exists in Hex as (h & _ & (Hc%Z.leb_le & Hh%Z.eqb_eq)%andb_true_iff).
    replace (px - cx) with w by lia. rewrite <- Hh. exact Hc.
  - intros Hd.
    pose proof (Z.square_nonneg (px - cx)) as Hx0.
    pose proof (Z.square_nonneg (py - cy)) as Hy0.
    assert (Hxr : - BALL_RADIUS <= px - cx <= BALL_RADIUS)
      by (apply sq_le_bound; [unfold BALL_RADIUS|]; lia).
    assert (Hyr : - BALL_RADIUS <= py - cy <= BALL_RADIUS)
      by (apply sq_le_bound; [unfold BALL_RADIUS|]; lia).
    exists (px - cx). split; [apply in_from_to; exact Hxr|].
    apply andb_true_iff. split; [apply Z.eqb_eq; lia|].
    apply existsb_exists. exists (py - cy). split; [apply in_from_to; exact Hyr|].
    apply andb_true_iff. split; [apply Z.leb_le; exact Hd|apply Z.eqb_refl].
Qed.

Lemma draw_ball_defined (q : Ball32) (cx cy : Z) :
  b32_to_int (x (pos q)) = Some cx ->
  b32_to_int (y (pos q)) = Some cy ->
  -2147483648 <= cx - (BALL_RADIUS + 2) -> cx + (BALL_RADIUS + 2) <= 2147483647 ->
  -2147483648 <= cy - (BALL_RADIUS + 2) -> cy + (BALL_RADIUS + 2) <= 2147483647 ->
  draw_ball q =
    Some ((SetRenderDrawColor black :: circle_points cx cy (BALL_RADIUS + 2))
          ++ ball_fill q cx cy).
Proof.
  intros Hcx Hcy Hx1 Hx2 Hy1 Hy2. unfold draw_ball.
  rewrite Hcx, Hcy. cbn [and_then].
  rewrite (draw_circle_defined cx cy (BALL_RADIUS + 2) black)
    by (unfold BALL_RADIUS in *; lia).
  cbn [and_then].
  rewrite (in_turn_map _ (fun w =>
    flat_map (fun h =>
      if w * w + h * h <=? BALL_RADIUS * BALL_RADIUS
      then [SetRenderDrawColor (ball_pixel q h); RenderDrawPoint (cx + w) (cy + h)]
      else []) (from_to (- BALL_RADIUS) BALL_RADIUS))); [reflexivity|].
  intros w Hw%in_from_to. apply in_turn_map. intros h Hh%in_from_to.
  destruct (_ <=? _); [|reflexivity].
  rewrite !int_op_Some by (unfold BALL_RADIUS in *; lia). reflexivity.
Qed.


Lemma fold_set_color (p : Z * Z) (k k0 : SDL_Color) (l : list Draw) :
  fold_left (point_step p) (SetRenderDrawColor k :: l) (k0, None) =
  fold_left (point_step p) l (k, None).
Proof. reflexivity. Qed.

(** The colour a pixel has after the outline and the fill of a ball
    centred at [(cx, cy)]. *)
Lemma ball_pixels (q : Ball32) (cx cy px py : Z) :
  point_color_at
    ((SetRenderDrawColor black :: circle_points cx cy (BALL_RADIUS + 2))
     ++ ball_fill q cx cy) (px, py) =
  let d2 := (px - cx) * (px - cx) + (py - cy) * (py - cy) in
  if d2 <=? BALL_RADIUS * BALL_RADIUS
  then Some (if (8 <? id q) && (Z.abs (py - cy) <=? 4) then white else color q)
  else if (d2 <=? (BALL_RADIUS + 2) * (BALL_RADIUS + 2))
          && negb (bool_decide ((px, py) = (cx - (BALL_RADIUS + 2), cy)))
          && negb (bool_decide ((px, py) = (cx, cy - (BALL_RADIUS + 2))))
       then Some black
       else None.
Proof.
  unfold point_color_at. rewrite fold_left_app. unfold ball_fill.
  rewrite (fold_rows px py cx cy (ball_pixel q)
             (fun w h => w * w + h * h <=? BALL_RADIUS * BALL_RADIUS)).
  rewrite fill_reaches. cbv zeta.
  destruct (Z.leb_spec ((px - cx) * (px - cx) + (py - cy) * (py - cy))
              (BALL_RADIUS * BALL_RADIUS)) as [Hin|Hout].
  - f_equal. unfold ball_pixel. rewrite stripe_rows; [reflexivity|].
    pose proof (Z.square_nonneg (px - cx)).
    apply sq_le_bound; [unfold BALL_RADIUS|]; lia.
  - rewrite fold_set_color.
    destruct (fold_points (px, py) (circle_points cx cy (BALL_RADIUS + 2)) black None
                (circle_points_only _ _ _)) as (o' & Ho & Hyes & Hno).
    rewrite Ho. clear Ho. cbn [fst snd] in Hyes, Hno |- *.
    rewrite circle_points_disc in Hyes, Hno by (unfold BALL_RADIUS; lia).
    destruct (Z.leb_spec ((px - cx) * (px - cx) + (py - cy) * (py - cy))
                ((BALL_RADIUS + 2) * (BALL_RADIUS + 2))) as [Hring|Hfar];
      cbn [andb]; [|apply Hno; intros (Hd & _); lia].
    destruct (bool_decide_reflect ((px, py) = (cx - (BALL_RADIUS + 2), cy)))
      as [Hl|Hl]; cbn [negb andb]; [apply Hno; intros (_ & Hn & _); contradiction|].
    destruct (bool_decide_reflect ((px, py) = (cx, cy - (BALL_RADIUS + 2))))
      as [Ht|Ht]; cbn [negb]; [apply Hno; intros (_ & _ & Hn); contradiction|].
    apply Hyes. repeat split; assumption.
Qed.


(** X13.  draw_ball, for a ball whose centre converts to the integers
    [(cx, cy)], at least BALL_RADIUS + 2 away from the ends of [int], is
    defined, and the last point it draws at a pixel has: within
    BALL_RADIUS of the centre, white on the nine rows nearest the centre
    when the identity is above 8 and the colour of the ball otherwise;
    farther out but within BALL_RADIUS + 2, black, except at the
    leftmost and the topmost point of that disc; beyond, no point is
    drawn. *)
Theorem draw_ball_pixels (q : Ball32) (cx cy px py : Z) :
  b32_to_int (x (pos q)) = Some cx ->
  b32_to_int (y (pos q)) = Some cy ->
  -2147483648 <= cx - (BALL_RADIUS + 2) -> cx + (BALL_RADIUS + 2) <= 2147483647 ->
  -2147483648 <= cy - (BALL_RADIUS + 2) -> cy + (BALL_RADIUS + 2) <= 2147483647 ->
  exists l, draw_ball q = Some l /\
    point_color_at l (px, py) =
      let d2 := (px - cx) * (px - cx) + (py - cy) * (py - cy) in
      if d2 <=? BALL_RADIUS * BALL_RADIUS
      then Some (if (8 <? id q) && (Z.abs (py - cy) <=? 4)
                 then white else color q)
      else if (d2 <=? (BALL_RADIUS + 2) * (BALL_RADIUS + 2))
              && negb (bool_decide ((px, py) = (cx - (BALL_RADIUS + 2), cy)))
              && negb (bool_decide ((px, py) = (cx, cy - (BALL_RADIUS + 2))))
           then Some black
           else None.
Proof.
  intros Hcx Hcy Hx1 Hx2 Hy1 Hy2. eexists. split.
  - apply draw_ball_defined; eassumption.
  - apply ball_pixels.
Qed.

(** *** The frame *)

Lemma circle_points_paint (cx cy r : Z) :
  forallb is_paint (circle_points cx cy r) = true.
Proof.
  apply forallb_forall. intros d Hin.
  pose proof (circle_points_only cx cy r) as Hall.
  rewrite List.Forall_forall in Hall.
  destruct (Hall d Hin) as (px & py & ->). reflexivity.
Qed.

Lemma ball_fill_paint (q : Ball32) (cx cy : Z) :
  forallb is_paint (ball_fill q cx cy) = true.
Proof.
  apply forallb_forall. intros d Hin. unfold ball_fill in Hin.
  apply in_flat_map in Hin as (w & _ & Hin).
  apply in_flat_map in Hin as (h & _ & Hin).
  destruct (_ <=? _); [|destruct Hin].
  destruct Hin as [<-|[<-|[]]]; reflexivity.
Qed.

Lemma in_turn_paint {A} (body : A -> option (list Draw)) (vs : list A) :
  (forall v, In v vs -> exists l, body v = Some l /\ forallb is_paint l = true) ->
  exists l, in_turn (map body vs) = Some l /\ forallb is_paint l = true.
Proof.
  induction vs as [|v vs IH]; intros Hb; [exists []; split; reflexivity|].
  destruct (Hb v (or_introl eq_refl)) as (l & Hl & Hpl).
  destruct IH as (ls & Hls & Hpls); [intros u Hu; apply Hb; right; exact Hu|].
  exists (l ++ ls). cbn [map in_turn]. rewrite Hl, Hls. split; [reflexivity|].
  rewrite forallb_app, Hpl, Hpls. reflexivity.
Qed.

Lemma drawable_inv (rad : Z) (v : @Vec2D B32.t) :
  drawable rad v = true ->
  exists cx cy, b32_to_int (x v) = Some cx /\ b32_to_int (y v) = Some cy /\
    -2147483648 <= cx - rad /\ cx + rad <= 2147483647 /\
    -2147483648 <= cy - rad /\ cy + rad <= 2147483647.
Proof.
  unfold drawable.
  destruct (b32_to_int (x v)) as [cx|]; [|discriminate].
  destruct (b32_to_int (y v)) as [cy|]; [|discriminate].
  rewrite !andb_true_iff, !in_int_range. intros [[[H1 H2] H3] H4].
  exists cx, cy. repeat split; lia.
Qed.

Lemma draw_pocket_paint (p : @Pocket B32.t) :
  drawable POCKET_RADIUS (ppos p) = true ->
  exists l, draw_pocket p = Some l /\ forallb is_paint l = true.
Proof.
  intros (cx & cy & Hcx & Hcy & H1 & H2 & H3 & H4)%drawable_inv.
  unfold draw_pocket. rewrite Hcx, Hcy. cbn [and_then].
  rewrite draw_circle_defined by (unfold POCKET_RADIUS in *; lia).
  eexists. split; [reflexivity|]. cbn [forallb is_paint andb].
  apply circle_points_paint.
Qed.

Lemma draw_ball_paint (q : Ball32) :
  drawable (BALL_RADIUS + 2) (pos q) = true ->
  exists l, draw_ball q = Some l /\ forallb is_paint l = true.
Proof.
  intros (cx & cy & Hcx & Hcy & H1 & H2 & H3 & H4)%drawable_inv.
  rewrite (draw_ball_defined q cx cy) by assumption.
  eexists. split; [reflexivity|].
  rewrite forallb_app. cbn [forallb is_paint andb].
  rewrite circle_points_paint, ball_fill_paint. reflexivity.
Qed.

Lemma paint_no_line (l : list Draw) (x1 y1 x2 y2 : Z) :
  forallb is_paint l = true -> ~ In (RenderDrawLine x1 y1 x2 y2) l.
Proof.
  intros Hall Hin. rewrite forallb_forall in Hall.
  specialize (Hall _ Hin). discriminate Hall.
Qed.

(** X14.  render, when every pocket and every active ball can be
    drawn, is defined.  In the state Game Over the frame ends with a
    clear to maroon and the present, which wipes whatever was drawn
    before; in the other states the only clear is the first call after
    the background colour and the only present is the last call.  A
    line is drawn exactly in the state Aiming with the cue ball active:
    the cue stick, from the integer part of the cue ball's centre to the
    mouse position. *)
Theorem render_frame (mouseX mouseY : Z) (w : World32) :
  (forall i, (i < 6)%nat ->
     drawable POCKET_RADIUS (ppos (gPockets w !!! i)) = true) ->
  (forall i, (i < NUM_BALLS)%nat -> isActive (ball i (gBalls w)) = true ->
     drawable (BALL_RADIUS + 2) (pos (ball i (gBalls w))) = true) ->
  exists l, render mouseX mouseY w = Some l /\
    (gCurrentState w = STATE_GAME_OVER ->
       exists l0, l = l0 ++ [SetRenderDrawColor maroon; RenderClear; RenderPresent]) /\
    (gCurrentState w <> STATE_GAME_OVER ->
       exists l0, l = [SetRenderDrawColor brown; RenderClear] ++ l0 ++ [RenderPresent] /\
                  ~ In RenderClear l0 /\ ~ In RenderPresent l0) /\
    (forall x1 y1 x2 y2, In (RenderDrawLine x1 y1 x2 y2) l <->
       gCurrentState w = STATE_AIMING /\
       isActive (ball 0 (gBalls w)) = true /\
       b32_to_int (x (pos (ball 0 (gBalls w)))) = Some x1 /\
       b32_to_int (y (pos (ball 0 (gBalls w)))) = Some y1 /\
       x2 = mouseX /\ y2 = mouseY).
Proof.
  intros Hpk Hbl.
  destruct (in_turn_paint (fun i => draw_pocket (gPockets w !!! i)) (seq 0 6))
    as (ps & Hps & Pps).
  { intros i Hi%in_seq. apply draw_pocket_paint, Hpk. lia. }
  destruct (in_turn_paint
              (fun i => if isActive (ball i (gBalls w))
                        then draw_ball (ball i (gBalls w)) else Some [])
              (seq 0 NUM_BALLS)) as (bs & Hbs & Pbs).
  { intros i Hi%in_seq. destruct (isActive (ball i (gBalls w))) eqn:Ha.
    - apply draw_ball_paint, Hbl; [lia|exact Ha].
    - exists []. split; reflexivity. }
  assert (Hcue : exists cue, draw_cue mouseX mouseY w = Some cue /\
            ~ In RenderClear cue /\ ~ In RenderPresent cue /\
            forall x1 y1 x2 y2, In (RenderDrawLine x1 y1 x2 y2) cue <->
              gCurrentState w = STATE_AIMING /\
              isActive (ball 0 (gBalls w)) = true /\
              b32_to_int (x (pos (ball 0 (gBalls w)))) = Some x1 /\
              b32_to_int (y (pos (ball 0 (gBalls w)))) = Some y1 /\
              x2 = mouseX /\ y2 = mouseY).
  { unfold draw_cue.
    destruct (bool_decide_reflect (gCurrentState w = STATE_AIMING)) as [Hst|Hst];
      cbn [andb].
    - destruct (isActive (ball 0 (gBalls w))) eqn:Ha.
      + destruct (drawable_inv _ _ (Hbl 0%nat ltac:(unfold NUM_BALLS; lia) Ha))
          as (cx & cy & Hcx & Hcy & _).
        rewrite Hcx, Hcy. cbn [and_then]. eexists. split; [reflexivity|].
        split; [intros [H|[H|[]]]; discriminate H|].
        split; [intros [H|[H|[]]]; discriminate H|].
        intros x1 y1 x2 y2. cbn [In]. split.
        * intros [H|[H|[]]]; [discriminate H|]. injection H as <- <- <- <-.
          repeat split; assumption.
        * intros (_ & _ & H1 & H2 & -> & ->). right. left.
          congruence.
      + exists []. split; [reflexivity|]. split; [intros []|]. split; [intros []|].
        intros x1 y1 x2 y2. split; [intros []|].
        intros (_ & H & _). discriminate H.
    - exists []. split; [reflexivity|]. split; [intros []|]. split; [intros []|].
      intros x1 y1 x2 y2. split; [intros []|].
      intros (H & _). contradiction. }
  destruct Hcue as (cue & Hcue & Hc1 & Hc2 & Hline).
  assert (Hnp : forall l, forallb is_paint l = true ->
            ~ In RenderClear l /\ ~ In RenderPresent l).
  { intros l Hall. rewrite forallb_forall in Hall.
    split; intros Hin; specialize (Hall _ Hin); discriminate Hall. }
  unfold render. cbn [in_turn]. rewrite Hps, Hbs, Hcue.
  eexists. split; [reflexivity|].
  split; [|split].
  - intros Hover. rewrite bool_decide_eq_true_2 by assumption.
    exists ([SetRenderDrawColor brown; RenderClear; SetRenderDrawColor felt;
             RenderFillRect (Z.quot (SCREEN_WIDTH - TABLE_WIDTH) 2)
               (Z.quot (SCREEN_HEIGHT - TABLE_HEIGHT) 2) TABLE_WIDTH TABLE_HEIGHT]
            ++ ps ++ bs ++ cue).
    rewrite <- !app_assoc. reflexivity.
  - intros Hnot. rewrite bool_decide_eq_false_2 by assumption.
    exists ([SetRenderDrawColor felt;
             RenderFillRect (Z.quot (SCREEN_WIDTH - TABLE_WIDTH) 2)
               (Z.quot (SCREEN_HEIGHT - TABLE_HEIGHT) 2) TABLE_WIDTH TABLE_HEIGHT]
            ++ ps ++ bs ++ cue).
    split; [rewrite <- !app_assoc; reflexivity|].
    destruct (Hnp ps Pps) as [Hp1 Hp2], (Hnp bs Pbs) as [Hb1 Hb2].
    split; intros Hin;
      (apply in_app_iff in Hin as [[H|[H|[]]]|Hin]; [discriminate H ..|]);
      (apply in_app_iff in Hin as [Hin|Hin]; [tauto|]);
      (apply in_app_iff in Hin as [Hin|Hin]; tauto).
  - intros x1 y1 x2 y2. rewrite <- Hline. rewrite !in_app_iff. cbn [In].
    pose proof (paint_no_line ps x1 y1 x2 y2 Pps) as Hp.
    pose proof (paint_no_line bs x1 y1 x2 y2 Pbs) as Hb.
    split.
    + intros H.
      repeat match goal with
             | H : _ \/ _ |- _ => destruct H as [H|H]
             | H : False |- _ => destruct H
             | H : In _ (if ?c then _ else _) |- _ => destruct c
             | H : In _ (_ :: _) |- _ => destruct H as [H|H]
             | H : In _ [] |- _ => destruct H
             end; try discriminate; tauto.
    + intros H. right. right. right. left. exact H.
Qed.

(** X15.  render has no defined behaviour when a coordinate of an active
    ball does not convert to [int]: a NaN (which the tick produces for
    coincident centres), an infinity, or a value out of range. *)
Theorem render_undefined (mouseX mouseY : Z) (w : World32) (i : nat) :
  (i < NUM_BALLS)%nat ->
  isActive (ball i (gBalls w)) = true ->
  b32_to_int (x (pos (ball i (gBalls w)))) = None \/
  b32_to_int (y (pos (ball i (gBalls w)))) = None ->
  render mouseX mouseY w = None.
Proof.
  intros Hi Ha Hnone.
  assert (Hb : draw_ball (ball i (gBalls w)) = None).
  { unfold draw_ball. destruct Hnone as [->| ->]; [reflexivity|].
    destruct (b32_to_int (x (pos (ball i (gBalls w))))); reflexivity. }
  assert (Hbs : in_turn (map (fun i => if isActive (ball i (gBalls w))
                                       then draw_ball (ball i (gBalls w))
                                       else Some [])
                             (seq 0 NUM_BALLS)) = None).
  { apply in_turn_None. apply in_map_iff. exists i.
    rewrite Ha, Hb. split; [reflexivity|]. apply in_seq. lia. }
  unfold render. apply in_turn_None. right. right. left. exact Hbs.
Qed.

(** X16.  render does not look at inactive balls: worlds that agree on
    the pockets, the state, the active flags and the active balls give
    the same frame. *)
Theorem render_skips_inactive (mouseX mouseY : Z) (w1 w2 : World32) :
  same_play w1 w2 -> render mouseX mouseY w1 = render mouseX mouseY w2.
Proof.
  intros (Hp & Hst & Hb). unfold render, draw_cue. rewrite Hp, Hst.
  destruct (Hb 0%nat) as [Ha0 Hb0].
  rewrite <- Ha0.
  assert (Hballs : map (fun i => if isActive (ball i (gBalls w1))
                                 then draw_ball (ball i (gBalls w1)) else Some [])
                       (seq 0 NUM_BALLS) =
                   map (fun i => if isActive (ball i (gBalls w2))
                                 then draw_ball (ball i (gBalls w2)) else Some [])
                       (seq 0 NUM_BALLS)).
  { apply map_ext. intros i. destruct (Hb i) as [Ha Hbi]. rewrite <- Ha.
    destruct (isActive (ball i (gBalls w1))); [rewrite Hbi|]; reflexivity. }
  rewrite Hballs.
  destruct (isActive (ball 0 (gBalls w1))) eqn:Hact;
    [rewrite (Hb0 eq_refl)|rewrite !andb_false_r]; reflexivity.
Qed.

End Rendering.

(** * The outcome of a tick, the game loop and the frame on concrete worlds *)

Section Concrete.

Local Open Scope fl_scope.

Lemma ghost_worlds_same_play : same_play ghost_world ghost_world'.
Proof.
  unfold ghost_world'. apply same_play_dead_slot; vm_compute; reflexivity.
Defined.

Lemma inactive_ignored_witness :
  pos (ball 5 (gBalls ghost_world')) = pos (ball 0 (gBalls ghost_world')) /\
  same_play (update ghost_world) (update ghost_world').
Proof.
  split; [vm_compute; reflexivity|].
  apply (inactive_ignored ghost_world ghost_world'), ghost_worlds_same_play.
Defined.

Lemma game_over_needs_money_ball_witness :
  exists k, (k < NUM_BALLS)%nat /\
    id (ball k (gBalls potting_world)) = 8%Z /\
    isActive (ball k (gBalls potting_world)) = true /\
    isActive (ball k (gBalls (update potting_world))) = false.
Proof.
  apply (game_over_needs_money_ball potting_world); vm_compute; reflexivity.
Defined.

Lemma money_ball_potted_outcome_witness :
  (gCurrentState (update creeping_world) = STATE_GAME_OVER \/
   gCurrentState (update creeping_world) = STATE_AIMING) /\
  (gCurrentState (update creeping_world) = STATE_GAME_OVER <->
   exists i, (i < NUM_BALLS)%nat /\
     isActive (ball i (gBalls creeping_world)) = true /\
     slow (ball i (gBalls (world_at_turn i creeping_world))) = false).
Proof.
  apply (money_ball_potted_outcome creeping_world 8);
    [reflexivity | unfold NUM_BALLS; lia | reflexivity | reflexivity
    | vm_compute; reflexivity].
Defined.

Lemma aiming_means_all_slow_witness :
  slow (ball 0 (gBalls (world_at_turn 0 slow_world))) = true.
Proof.
  apply (aiming_means_all_slow slow_world 0);
    [reflexivity | vm_compute; reflexivity | unfold NUM_BALLS; lia | reflexivity].
Defined.

Lemma quit_ends_the_loop_witness :
  game_loop ([SDL_MOUSEBUTTONDOWN 350 250; SDL_QUIT] :: [[]; []]) rack32
    = frame [SDL_MOUSEBUTTONDOWN 350 250; SDL_QUIT] rack32 /\
  gGameIsRunning (frame [SDL_MOUSEBUTTONDOWN 350 250; SDL_QUIT] rack32) = false.
Proof.
  apply (quit_ends_the_loop [SDL_MOUSEBUTTONDOWN 350 250; SDL_QUIT] [[]; []] rack32);
    reflexivity.
Defined.

Lemma running_flag_never_set_witness :
  gGameIsRunning (play [[SDL_KEYDOWN SDLK_r]; [SDL_MOUSEBUTTONDOWN 350 250]; []]
                       stopped_world) = false.
Proof.
  apply (running_flag_never_set
           [[SDL_KEYDOWN SDLK_r]; [SDL_MOUSEBUTTONDOWN 350 250]; []] stopped_world).
  reflexivity.
Defined.

Lemma only_first_click_counts_witness :
  handle_input [SDL_MOUSEBUTTONDOWN 350 250; SDL_MOUSEBUTTONDOWN 100 400;
                SDL_MOUSEBUTTONDOWN 0 0] rack32
  = handle_event (SDL_MOUSEBUTTONDOWN 350 250) rack32.
Proof.
  apply (only_first_click_counts 350 250
           [SDL_MOUSEBUTTONDOWN 100 400; SDL_MOUSEBUTTONDOWN 0 0] rack32);
    reflexivity.
Defined.

Lemma reset_from_any_state_witness :
  handle_event (SDL_KEYDOWN SDLK_r) over_world =
    set_gGameIsRunning (gGameIsRunning over_world) initial_world /\
  gCurrentState (handle_event (SDL_KEYDOWN SDLK_r) over_world) = STATE_AIMING.
Proof. apply (reset_from_any_state over_world). reflexivity. Defined.

Lemma collide_coincident_witness :
  pos (fst (collide striker32 (set_pos (pos striker32) target32))) = nan_vec /\
  vel (snd (collide striker32 (set_pos (pos striker32) target32))) = nan_vec.
Proof.
  destruct (collide_coincident striker32 (set_pos (pos striker32) target32))
    as (_ & _ & Hp & _ & _ & Hv); [reflexivity ..|].
  split; assumption.
Defined.

(** *** The opening rack *)

Lemma rack32_playable (i : nat) :
  (i < NUM_BALLS)%nat ->
  let q := ball i (gBalls rack32) in
  id q = Z.of_nat i /\ isActive q = true /\ vel q = zero_vec /\
  contained32 q = true /\
  (forall k, (k < 6)%nat -> in_pocket (gPockets rack32 !!! k) q = false) /\
  (forall j, (j < NUM_BALLS)%nat -> j <> i ->
     overlapping q (ball j (gBalls rack32)) = false).
Proof.
  intros Hi. unfold NUM_BALLS in *. cbv zeta.
  do 16 (destruct i as [|i];
    [ clear Hi;
      split; [vm_compute; reflexivity|]; split; [vm_compute; reflexivity|];
      split; [vm_compute; reflexivity|]; split; [vm_compute; reflexivity|];
      split;
      [ intros k Hk;
        do 6 (destruct k as [|k]; [vm_compute; reflexivity|]); lia
      | intros j Hj Hne;
        do 16 (destruct j as [|j];
                 [first [congruence | vm_compute; reflexivity]|]); lia ]
    |]).
  lia.
Qed.

(** X17.  In binary32, after the reset key, whatever the world was: the
    state is Aiming, and each of the 16 balls has its index as identity,
    is active and at rest, lies between the inset bounds, is in none of
    the 6 pockets, and overlaps no other ball. *)
Theorem reset_racks_the_table (w : World32) :
  length (gBalls w) = NUM_BALLS ->
  let w' := handle_event (SDL_KEYDOWN SDLK_r) w in
  gCurrentState w' = STATE_AIMING /\
  length (gBalls w') = NUM_BALLS /\ length (gPockets w') = 6%nat /\
  forall i, (i < NUM_BALLS)%nat ->
    let q := ball i (gBalls w') in
    id q = Z.of_nat i /\ isActive q = true /\ vel q = zero_vec /\
    contained32 q = true /\
    (forall k, (k < 6)%nat -> in_pocket (gPockets w' !!! k) q = false) /\
    (forall j, (j < NUM_BALLS)%nat -> j <> i ->
       overlapping q (ball j (gBalls w')) = false).
Proof.
  intros Hlen. cbv zeta.
  rewrite handle_event_reset, reset_game_fresh by assumption.
  change (gBalls (set_gGameIsRunning (gGameIsRunning w) initial_world))
    with (gBalls rack32).
  change (gPockets (set_gGameIsRunning (gGameIsRunning w) initial_world))
    with (gPockets rack32).
  split; [reflexivity|]. split; [vm_compute; reflexivity|].
  split; [vm_compute; reflexivity|].
  exact rack32_playable.
Qed.

Lemma reset_racks_the_table_witness :
  let w' := handle_event (SDL_KEYDOWN SDLK_r) potting_world in
  gCurrentState w' = STATE_AIMING /\
  pos (ball 8 (gBalls w')) = pos (ball 8 (gBalls rack32)) /\
  vel (ball 8 (gBalls w')) = zero_vec.
Proof.
  cbv zeta.
  destruct (reset_racks_the_table potting_world) as (Hst & _ & _ & Hb);
    [reflexivity|].
  split; [exact Hst|]. split; [vm_compute; reflexivity|].
  destruct (Hb 8%nat) as (_ & _ & Hv & _); [unfold NUM_BALLS; lia|exact Hv].
Defined.

(** *** The drawing *)


Lemma draw_ball_pixels_witness :
  exists l, draw_ball (ball 9 (gBalls rack32)) = Some l /\
    point_color_at l (776, 235) = Some white /\
    point_color_at l (776, 245) = Some (color (ball 9 (gBalls rack32))) /\
    point_color_at l (792, 235) = Some black /\
    point_color_at l (759, 235) = None.
Proof.
  assert (Hx : b32_to_int (x (pos (ball 9 (gBalls rack32)))) = Some 776)
    by (vm_compute; reflexivity).
  assert (Hy : b32_to_int (y (pos (ball 9 (gBalls rack32)))) = Some 235)
    by (vm_compute; reflexivity).
  destruct (draw_ball_pixels (ball 9 (gBalls rack32)) 776 235 776 235 Hx Hy)
    as (l & Hl & H1); [unfold BALL_RADIUS; lia ..|].
  exists l. split; [exact Hl|].
  destruct (draw_ball_pixels (ball 9 (gBalls rack32)) 776 235 776 245 Hx Hy)
    as (l2 & Hl2 & H2); [unfold BALL_RADIUS; lia ..|].
  destruct (draw_ball_pixels (ball 9 (gBalls rack32)) 776 235 792 235 Hx Hy)
    as (l3 & Hl3 & H3); [unfold BALL_RADIUS; lia ..|].
  destruct (draw_ball_pixels (ball 9 (gBalls rack32)) 776 235 759 235 Hx Hy)
    as (l4 & Hl4 & H4); [unfold BALL_RADIUS; lia ..|].
  rewrite Hl in Hl2, Hl3, Hl4.
  injection Hl2 as <-. injection Hl3 as <-. injection Hl4 as <-.
  rewrite H1, H2, H3, H4. vm_compute. repeat split.
Defined.

Lemma over_world_drawable :
  (forall i, (i < 6)%nat ->
     drawable POCKET_RADIUS (ppos (gPockets over_world !!! i)) = true) /\
  (forall i, (i < NUM_BALLS)%nat -> isActive (ball i (gBalls over_world)) = true ->
     drawable (BALL_RADIUS + 2) (pos (ball i (gBalls over_world))) = true).
Proof.
  split.
  - intros i Hi. do 6 (destruct i as [|i]; [vm_compute; reflexivity|]). lia.
  - intros i Hi _. unfold NUM_BALLS in Hi.
    do 16 (destruct i as [|i]; [vm_compute; reflexivity|]). lia.
Defined.

Lemma render_frame_witness :
  exists l l0, render 10 20 over_world = Some l /\
    l = l0 ++ [SetRenderDrawColor maroon; RenderClear; RenderPresent].
Proof.
  destruct over_world_drawable as [Hp Hb].
  destruct (render_frame 10 20 over_world Hp Hb) as (l & Hl & Hover & _).
  destruct (Hover eq_refl) as (l0 & Hl0).
  exists l, l0. split; assumption.
Defined.

Lemma render_undefined_witness :
  render 10 20 (update coincident_world) = None.
Proof.
  apply (render_undefined 10 20 (update coincident_world) 0%nat);
    [unfold NUM_BALLS; lia | vm_compute; reflexivity
    | left; vm_compute; reflexivity].
Defined.

Lemma render_skips_inactive_witness :
  render 10 20 ghost_world = render 10 20 ghost_world'.
Proof. apply render_skips_inactive, ghost_worlds_same_play. Defined.

End Concrete.
